(** * pino-cloudwatch-transport: the batching and flush engine of dist/index.js

    A shallow embedding of the transport's buffer closure ([addLog],
    [orderLogs], [wipeLogs], [addErrorLog]), of [putEventLogs], of the
    throttled [flush] body, of the producer loop and of [parseLine],
    followed by the properties of the specification.

    Conventions.
    - A JS string is a [string] whose characters stand for UTF-16 code units
      below 256, so [.length] is [String.length].
    - JS numbers that the engine computes with (lengths, epoch milliseconds)
      are integers, modelled in [Z].
    - [undefined] where a string is expected is [None].
    - [Date.now()] is an input: every operation that may read the clock
      takes the reading [now] it would obtain. *)

From Stdlib Require Import ZArith List String Ascii Bool Lia.
From Stdlib Require Import Permutation Sorted.
Import ListNotations.
Local Set Warnings "-register-all".
Local Open Scope string_scope.
Local Open Scope list_scope.
Local Open Scope Z_scope.

(** ** Data *)

(** [s.length] *)
Definition js_length (s : string) : Z := Z.of_nat (String.length s).

(** A log record [{ timestamp, message }].  [parseLine] stores whatever
    value [value.time] holds and produces a [LogRecord jsval].  The engine
    below is the code on the records whose timestamp is a number, a
    [LogRecord Z]: those [parseLine] makes of a line with a numeric [time]
    or with none, and those [addErrorLog] builds.  The comparator of
    [orderLogs] on timestamps of any type is [Untyped.comparefn], further
    down, and [as_parsed] relates the two. *)
Record LogRecord {T : Type} : Type := mkLog { timestamp : T; message : string }.
Arguments LogRecord : clear implicits.
Arguments mkLog {T} _ _.

Abbreviation LogEvent := (LogRecord Z).

(** The value a rejected [client.send] promise carries. *)
Module JsError.
Record t : Type := mk {
  instanceofError : bool;              (* err instanceof Error *)
  name : string;                       (* err.name *)
  message : option string;             (* e.message *)
  expectedSequenceToken : option string (* error.expectedSequenceToken *)
}.
End JsError.

(** The input of [new PutLogEventsCommand({...})]. *)
Module Put.
Record Command : Type := mk {
  logEvents : list LogEvent;
  logGroupName : string;
  logStreamName : string;
  sequenceToken : option string
}.
End Put.

(** How the promise of [client.send(new PutLogEventsCommand(...))] settles. *)
Inductive SendResult : Type :=
| Resolved (nextSequenceToken : option string)   (* output.nextSequenceToken *)
| Rejected (error : JsError.t).

(** The object handed to [addErrorLog]. *)
Module ErrorLog.
Record t : Type := mk { message : string; error : option string }.
End ErrorLog.

(** What the producer loop and the flush it awaits are doing.  [depth] counts
    the flush executions suspended in their [catch] block, awaiting the
    [flush()] that [addErrorLog] called. *)
Inductive Activity : Type :=
| Idle                          (* the loop waits for the next object *)
| FlushQueued (depth : nat)     (* flush() was called; the throttle holds it *)
| PutInFlight (depth : nat).    (* the flush body awaits client.send *)

(** The closure variables of the transport, the queue of [setImmediate]
    callbacks it registered, and the commands it has passed to
    [client.send] so far. *)
Record State : Type := mkState {
  bufferedLogs : list LogEvent;
  lastFlush : Z;
  sequenceToken : option string;
  immediates : list LogEvent;
  loop : Activity;
  sent : list Put.Command
}.

Definition set_bufferedLogs (l : list LogEvent) (st : State) : State :=
  mkState l (lastFlush st) (sequenceToken st) (immediates st) (loop st) (sent st).
Definition set_lastFlush (t : Z) (st : State) : State :=
  mkState (bufferedLogs st) t (sequenceToken st) (immediates st) (loop st) (sent st).
Definition set_sequenceToken (tok : option string) (st : State) : State :=
  mkState (bufferedLogs st) (lastFlush st) tok (immediates st) (loop st) (sent st).
Definition set_immediates (q : list LogEvent) (st : State) : State :=
  mkState (bufferedLogs st) (lastFlush st) (sequenceToken st) q (loop st) (sent st).
Definition set_loop (a : Activity) (st : State) : State :=
  mkState (bufferedLogs st) (lastFlush st) (sequenceToken st) (immediates st) a (sent st).
Definition set_sent (s : list Put.Command) (st : State) : State :=
  mkState (bufferedLogs st) (lastFlush st) (sequenceToken st) (immediates st) (loop st) s.

(** ** Constants *)

Definition MAX_EVENT_SIZE : Z := 2 ^ 10 * 256.
Definition MAX_BUFFER_LENGTH : Z := 10000.
Definition MAX_BUFFER_SIZE : Z := 1048576.

(** [const interval = options.interval || 1000]: an absent or zero option
    falls back to 1000. *)
Definition interval_of (options_interval : option Z) : Z :=
  match options_interval with
  | Some i => if i =? 0 then 1000 else i
  | None => 1000
  end.

(** ** [Array.prototype.sort]

    The builtin is specified as a stable sort driven by the sign of
    [comparefn]; the model is the stable insertion sort, which is the only
    possible result whenever [comparefn] is a consistent comparator. *)
Fixpoint sort_insert {A : Type} (comparefn : A -> A -> Z) (x : A) (l : list A)
  : list A :=
  match l with
  | [] => [x]
  | y :: l' =>
      if 0 <? comparefn x y then y :: sort_insert comparefn x l' else x :: l
  end.

Definition Array_sort {A : Type} (comparefn : A -> A -> Z) (l : list A)
  : list A :=
  fold_right (sort_insert comparefn) [] l.

(** ** [JSON.stringify] of the error object *)

Definition hex_digit (n : nat) : ascii :=
  match n with
  | 0%nat => "0" | 1%nat => "1" | 2%nat => "2" | 3%nat => "3"
  | 4%nat => "4" | 5%nat => "5" | 6%nat => "6" | 7%nat => "7"
  | 8%nat => "8" | 9%nat => "9" | 10%nat => "a" | 11%nat => "b"
  | 12%nat => "c" | 13%nat => "d" | 14%nat => "e" | _ => "f"
  end%char.

(** One code unit of QuoteJSONString. *)
Definition quote_char (c : ascii) : string :=
  let n := nat_of_ascii c in
  if (n =? 8)%nat then "\b"
  else if (n =? 9)%nat then "\t"
  else if (n =? 10)%nat then "\n"
  else if (n =? 12)%nat then "\f"
  else if (n =? 13)%nat then "\r"
  else if (n =? 34)%nat then String "\"%char (String c EmptyString)
  else if (n =? 92)%nat then "\\"
  else if (n <? 32)%nat then
    ("\u00" ++ String (hex_digit (n / 16))
                 (String (hex_digit (n mod 16)) EmptyString))%string
  else String c EmptyString.

Fixpoint quote_chars (s : string) : string :=
  match s with
  | EmptyString => EmptyString
  | String c s' => (quote_char c ++ quote_chars s')%string
  end.

Definition dquote : string := String (ascii_of_nat 34) EmptyString.

Definition JSON_quote (s : string) : string :=
  (dquote ++ quote_chars s ++ dquote)%string.

(** [JSON.stringify({ message, error })]: a property whose value is
    [undefined] is left out. *)
Definition JSON_stringify (o : ErrorLog.t) : string :=
  ("{" ++ JSON_quote "message" ++ ":" ++ JSON_quote (ErrorLog.message o) ++
   match ErrorLog.error o with
   | Some e => "," ++ JSON_quote "error" ++ ":" ++ JSON_quote e
   | None => ""
   end ++ "}")%string.

(** ** The error predicates *)

Definition isInvalidSequenceTokenException (err : JsError.t) : bool :=
  if JsError.instanceofError err
  then String.eqb (JsError.name err) "InvalidSequenceTokenException"
  else false.

Section Transport.

(** The options the closure captures. *)
Variable interval : Z.
Variables logGroupName logStreamName : string.

(** ** The buffer closure *)

Definition reachedNumberOfLogsLimit (st : State) : bool :=
  Z.of_nat (List.length (bufferedLogs st)) =? MAX_BUFFER_LENGTH.

(** [bufferedLogs.reduce((acc, curr) => acc + curr.message.length + 26, 0)] *)
Definition currentSize (logs : list LogEvent) : Z :=
  fold_left (fun acc curr => acc + js_length (message curr) + 26) logs 0.

Definition reachedBufferSizeLimit (newLog : LogEvent) (st : State) : bool :=
  (currentSize (bufferedLogs st) + js_length (message newLog) + 26)
    >=? MAX_BUFFER_SIZE.

Definition logEventExceedsSize (log : LogEvent) : bool :=
  js_length (message log) >=? MAX_EVENT_SIZE.

Definition getLogs (st : State) : list LogEvent := bufferedLogs st.

Definition orderLogs (st : State) : State :=
  set_bufferedLogs
    (Array_sort (fun a b => timestamp a - timestamp b) (getLogs st)) st.

Definition shouldDoAPeriodicFlush (now : Z) (st : State) : bool * State :=
  let timeSinceLastFlush := now - lastFlush st in
  (timeSinceLastFlush >? interval, set_lastFlush now st).

(** [bufferedLogs.push(log)] *)
Definition push (log : LogEvent) (st : State) : State :=
  set_bufferedLogs (bufferedLogs st ++ [log]) st.

(** [setImmediate(() => { addLog(log); })]: the callback joins the queue of
    pending immediates; all it holds is the record to retry. *)
Definition setImmediate (log : LogEvent) (st : State) : State :=
  set_immediates (immediates st ++ [log]) st.

(** [addLog(log)].  The right operand of [||] is evaluated only when the
    left one is false. *)
Definition addLog (now : Z) (log : LogEvent) (st : State) : bool * State :=
  if logEventExceedsSize log then (false, st)
  else if negb (reachedBufferSizeLimit log st) then
    let st1 := push log st in
    if reachedNumberOfLogsLimit st1 then (true, st1)
    else shouldDoAPeriodicFlush now st1
  else (true, setImmediate log st).

Definition wipeLogs (st : State) : State := set_bufferedLogs [] st.

(** The record [addErrorLog] builds. *)
Definition errorRecord (now : Z) (errorLog : ErrorLog.t) : LogEvent :=
  mkLog now (JSON_stringify errorLog).

(** [addErrorLog(errorLog)] up to its [await]: the result says whether
    [flush()] is called. *)
Definition addErrorLog (now : Z) (errorLog : ErrorLog.t) (st : State)
  : bool * State :=
  addLog now (errorRecord now errorLog) st.

(** ** [putEventLogs] *)

(** How an async function finishes: it returns, or it throws [e]. *)
Inductive Completion : Type :=
| Returned
| Thrown (e : JsError.t).

(** [putEventLogs] up to its [await]: nothing when [logEvents] is empty
    (the function returns at once), else the command given to
    [client.send], which carries the token held at that moment. *)
Definition putEventLogs_command (logEvents : list LogEvent) (st : State)
  : option Put.Command :=
  match logEvents with
  | [] => None
  | _ :: _ =>
      Some (Put.mk logEvents logGroupName logStreamName (sequenceToken st))
  end.

(** [putEventLogs] after its [await], when the promise has settled as [r]. *)
Definition putEventLogs_settle (r : SendResult) (st : State)
  : Completion * State :=
  match r with
  | Resolved nextSequenceToken =>
      (Returned, set_sequenceToken nextSequenceToken st)
  | Rejected error =>
      if isInvalidSequenceTokenException error
      then (Returned,
            set_sequenceToken (JsError.expectedSequenceToken error) st)
      else (Thrown error, st)
  end.

(** The whole call, given how the remote service answers it. *)
Definition putEventLogs (logEvents : list LogEvent) (r : SendResult)
           (st : State) : Completion * State :=
  match putEventLogs_command logEvents st with
  | None => (Returned, st)
  | Some cmd => putEventLogs_settle r (set_sent (sent st ++ [cmd]) st)
  end.

(** ** The throttled [flush] body *)

(** [finally { wipeLogs(); }] and what resumes once the promise of
    [flush()] resolves: every flush suspended in its [catch] block runs its
    own [finally], and the producer loop emits ['flushed'] and takes the
    next object. *)
Definition flush_finally (st : State) : State := set_loop Idle (wipeLogs st).

(** The body from its start to the [await] of [client.send]. *)
Definition flush_start (depth : nat) (st : State) : State :=
  let st1 := orderLogs st in
  match putEventLogs_command (getLogs st1) st1 with
  | None => flush_finally st1
  | Some cmd =>
      set_loop (PutInFlight depth) (set_sent (sent st1 ++ [cmd]) st1)
  end.

Definition flushingError (e : JsError.t) : ErrorLog.t :=
  ErrorLog.mk "pino-cloudwatch-transport flushing error" (JsError.message e).

(** The body once [client.send] has settled as [r]. *)
Definition flush_settle (depth : nat) (now : Z) (r : SendResult) (st : State)
  : State :=
  match putEventLogs_settle r st with
  | (Returned, st1) => flush_finally st1
  | (Thrown e, st1) =>
      let (shouldFlush, st2) := addErrorLog now (flushingError e) st1 in
      if shouldFlush then set_loop (FlushQueued (S depth)) st2
      else flush_finally st2
  end.

(** ** The event loop

    One macrotask of the transport.  The throttle decides when a queued
    flush starts and the remote service when and how a send settles;
    a pending immediate may run between any two of the other tasks.  The
    command of a send holds the records the buffer has when [client.send]
    is called.  The bootstrap of the group, stream and token and the
    [close] hook are not part of the model. *)
Inductive Event : Type :=
| Produce (now : Z) (obj : LogEvent)  (* the source yields [obj] *)
| Immediate (now : Z)                 (* the oldest setImmediate callback *)
| FlushStart                          (* the throttle releases flush() *)
| Settle (r : SendResult) (now : Z).  (* client.send settles *)

(** [None]: the event cannot happen in this state. *)
Definition step (ev : Event) (st : State) : option State :=
  match ev, loop st with
  | Produce now obj, Idle =>
      let (shouldFlush, st1) := addLog now obj st in
      Some (if shouldFlush then set_loop (FlushQueued 0) st1 else st1)
  | Immediate now, _ =>
      match immediates st with
      | log :: rest => Some (snd (addLog now log (set_immediates rest st)))
      | [] => None
      end
  | FlushStart, FlushQueued depth => Some (flush_start depth st)
  | Settle r now, PutInFlight depth => Some (flush_settle depth now r st)
  | _, _ => None
  end.

Fixpoint run (evs : list Event) (st : State) : option State :=
  match evs with
  | [] => Some st
  | ev :: evs' =>
      match step ev st with
      | Some st' => run evs' st'
      | None => None
      end
  end.

(** The transport once started: an empty buffer, [lastFlush] read from the
    clock, the token the bootstrap left. *)
Definition init (t0 : Z) (token : option string) : State :=
  mkState [] t0 token [] Idle [].

End Transport.

(** ** [parseLine] *)

(** The values [JSON.parse] can return, and [undefined].  Numbers are
    modelled at their integer values, as the epoch milliseconds of a [time]
    field are. *)
Inductive jsval : Type :=
| JUndefined
| JNull
| JBool (b : bool)
| JNumber (n : Z)
| JString (s : string)
| JArray (elements : list jsval)
| JObject (properties : list (string * jsval)).

(** ToBoolean *)
Definition truthy (v : jsval) : bool :=
  match v with
  | JUndefined | JNull => false
  | JBool b => b
  | JNumber n => negb (n =? 0)
  | JString s => negb (String.eqb s "")
  | JArray _ | JObject _ => true
  end.

Fixpoint property (key : string) (properties : list (string * jsval)) : jsval :=
  match properties with
  | [] => JUndefined
  | (k, v) :: rest => if String.eqb k key then v else property key rest
  end.

(** [value.time]: reading a property of [null] or [undefined] throws a
    TypeError ([None]); a primitive or an array has no [time]. *)
Definition get_time (value : jsval) : option jsval :=
  match value with
  | JUndefined | JNull => None
  | JObject properties => Some (property "time" properties)
  | JBool _ | JNumber _ | JString _ | JArray _ => Some JUndefined
  end.

(** [a || b] *)
Definition js_or (a b : jsval) : jsval := if truthy a then a else b.

(** [parseLine(line)].  [parsed] is what [JSON.parse(line)] does: [Some value]
    when it returns [value], [None] when it throws, in which case [value] is
    the string ['{}'].  The result is [None] when [parseLine] itself throws. *)
Definition parseLine (parsed : option jsval) (now : Z) (line : string)
  : option (LogRecord jsval) :=
  let value := match parsed with
               | Some v => v
               | None => JString "{}"
               end in
  match get_time value with
  | None => None
  | Some time => Some (mkLog (js_or time (JNumber now)) line)
  end.

(** ** Properties of a state that every execution keeps *)

(** A record under the per-record ceiling. *)
Definition admissible (r : LogEvent) : Prop :=
  js_length (message r) < MAX_EVENT_SIZE.

(** Every record of [l] is admissible and the size estimate of [l] is
    under the batch byte ceiling. *)
Definition within_limits (l : list LogEvent) : Prop :=
  Forall admissible l /\ currentSize l < MAX_BUFFER_SIZE.

(** While a send is in flight, the last command sent is not empty and its
    records are still at the front of the buffer. *)
Definition in_flight_buffered (st : State) : Prop :=
  forall depth, loop st = PutInFlight depth ->
    exists earlier cmd tail,
      sent st = earlier ++ [cmd] /\
      Put.logEvents cmd <> [] /\
      bufferedLogs st = Put.logEvents cmd ++ tail.

(** The limits hold of the buffer, of the pending retries and of every
    command sent. *)
Definition limits_kept (st : State) : Prop :=
  within_limits (bufferedLogs st) /\
  Forall admissible (immediates st) /\
  Forall (fun cmd => within_limits (Put.logEvents cmd)) (sent st).

Definition Inv (st : State) : Prop := limits_kept st /\ in_flight_buffered st.

(** The four ways [addLog] can go. *)
Inductive addLog_outcome (interval now : Z) (log : LogEvent) (st : State)
  : bool * State -> Prop :=
| Dropped :
    logEventExceedsSize log = true ->
    addLog_outcome interval now log st (false, st)
| Pushed_full :
    logEventExceedsSize log = false ->
    reachedBufferSizeLimit log st = false ->
    reachedNumberOfLogsLimit (push log st) = true ->
    addLog_outcome interval now log st (true, push log st)
| Pushed_timed :
    logEventExceedsSize log = false ->
    reachedBufferSizeLimit log st = false ->
    reachedNumberOfLogsLimit (push log st) = false ->
    addLog_outcome interval now log st
      (now - lastFlush st >? interval, set_lastFlush now (push log st))
| Deferred :
    logEventExceedsSize log = false ->
    reachedBufferSizeLimit log st = true ->
    addLog_outcome interval now log st (true, setImmediate log st).

(** The comparator of [orderLogs]. *)
Definition by_timestamp (a b : LogEvent) : Z := timestamp a - timestamp b.

(** Ascending by timestamp. *)
Definition ascending (a b : LogEvent) : Prop := timestamp a <= timestamp b.

(** The records of [l] stamped [t], in the order [l] has them. *)
Definition stamped (t : Z) (l : list LogEvent) : list LogEvent :=
  filter (fun r => timestamp r =? t) l.

(** ** Concrete inputs *)

(** The string of [n] characters [c]. *)
Fixpoint string_repeat (n : nat) (c : ascii) : string :=
  match n with
  | O => EmptyString
  | S n' => String c (string_repeat n' c)
  end.

(** A rejection that is not a token conflict. *)
Definition transportError : JsError.t :=
  JsError.mk true "TimeoutError" (Some "socket hang up") None.

Definition LogEvent_eqb (a b : LogEvent) : bool :=
  (timestamp a =? timestamp b) && String.eqb (message a) (message b).

Fixpoint batch_eqb (l1 l2 : list LogEvent) : bool :=
  match l1, l2 with
  | [], [] => true
  | a :: l1', b :: l2' => LogEvent_eqb a b && batch_eqb l1' l2'
  | _, _ => false
  end.

(** The number of records of each command sent, oldest first. *)
Definition batch_sizes (outcome : option State) : option (list Z) :=
  option_map
    (fun st => map (fun cmd => Z.of_nat (List.length (Put.logEvents cmd)))
                   (sent st))
    outcome.

(** Ten thousand short records arrive within the interval; the flush the
    last one triggers is rejected by the service three seconds later, and
    the flush that [addErrorLog] then calls starts. *)
Definition full_batch_then_failure : list Event :=
  repeat (Produce 5 (mkLog 5 "{}")) (Z.to_nat 10000) ++
  [FlushStart; Settle (Rejected transportError) 3000; FlushStart].

(** A record of the largest admissible size, and one that is one code unit
    too long. *)
Definition largest_record (t : Z) : LogEvent :=
  mkLog t (string_repeat (Z.to_nat 262143) "a").
Definition oversize_record : LogEvent :=
  mkLog 0 (string_repeat (Z.to_nat 262144) "a").

(** A buffer that the fourth largest record would overflow. *)
Definition three_largest : State :=
  mkState [largest_record 1; largest_record 2; largest_record 3]
          3 None [] Idle [].

(** A buffer one record short of the count ceiling. *)
Definition one_short : State :=
  mkState (repeat (mkLog 0 "{}") (Z.to_nat 9999)) 0 None [] Idle [].

(** An idle transport with one retry pending, last checked at time 0. *)
Definition retry_pending : State :=
  mkState [] 0 None [mkLog 7 "late"] Idle [].

(** The lines [{"time":0}] and [{"time":1000,"msg":"a"}]. *)
Definition line_time_zero : string :=
  ("{" ++ dquote ++ "time" ++ dquote ++ ":0}")%string.
Definition line_time_1000 : string :=
  ("{" ++ dquote ++ "time" ++ dquote ++ ":1000," ++
   dquote ++ "msg" ++ dquote ++ ":" ++ dquote ++ "a" ++ dquote ++ "}")%string.

(** One record triggers a periodic flush, which the service rejects half a
    second after the record was pushed. *)
Definition failure_within_interval : list Event :=
  [Produce 2000 (mkLog 2000 "{}"); FlushStart;
   Settle (Rejected transportError) 2500].

(** Four records fill the buffer to within 43 units of the byte ceiling; the
    flush is rejected, and the flush that [addErrorLog] calls starts. *)
Definition failure_on_full_buffer : list Event :=
  [Produce 1 (largest_record 1); Produce 2 (largest_record 2);
   Produce 3 (largest_record 3);
   Produce 2000 (mkLog 2000 (string_repeat (Z.to_nat 262000) "b"));
   FlushStart; Settle (Rejected transportError) 2100; FlushStart].

(** The execution sent exactly two commands, with the same non-empty batch
    and the same token. *)
Definition sent_twice (outcome : option State) : bool :=
  match outcome with
  | Some st =>
      match sent st with
      | [c1; c2] =>
          batch_eqb (Put.logEvents c1) (Put.logEvents c2) &&
          match Put.logEvents c1 with [] => false | _ :: _ => true end &&
          match Put.sequenceToken c1, Put.sequenceToken c2 with
          | None, None => true
          | Some a, Some b => String.eqb a b
          | _, _ => false
          end
      | _ => false
      end
  | None => false
  end.

(** ** The bootstrap: [createLogGroup], [createLogStream], [nextToken] *)

Definition isResourceAlreadyExistsException (err : JsError.t) : bool :=
  if JsError.instanceofError err
  then String.eqb (JsError.name err) "ResourceAlreadyExistsException"
  else false.

(** How the promise of [client.send(new CreateLog...Command(...))] settles. *)
Inductive CreateResult : Type :=
| Created
| CreateRejected (error : JsError.t).

(** One entry of [output.logStreams]. *)
Module LogStream.
Record t : Type := mk {
  logStreamName : string;
  uploadSequenceToken : option string
}.
End LogStream.

(** How [client.send(new DescribeLogStreamsCommand(...))] settles;
    [output.logStreams] may be absent. *)
Inductive DescribeResult : Type :=
| Described (logStreams : option (list LogStream.t))
| DescribeRejected (error : JsError.t).

(** The commands of the bootstrap, with their input. *)
Inductive BootCommand : Type :=
| CreateLogGroupCommand (logGroupName : string)
| CreateLogStreamCommand (logGroupName logStreamName : string)
| DescribeLogStreamsCommand (logGroupName logStreamNamePrefix : string).

(** [createLogGroup] once its send has settled. *)
Definition createLogGroup (r : CreateResult) : Completion :=
  match r with
  | Created => Returned
  | CreateRejected error =>
      if isResourceAlreadyExistsException error then Returned
      else Thrown error
  end.

(** [createLogStream] once its send has settled. *)
Definition createLogStream (r : CreateResult) : Completion :=
  match r with
  | Created => Returned
  | CreateRejected error =>
      if isResourceAlreadyExistsException error then Returned
      else Thrown error
  end.

(** [new Error('LogStream not found.')] *)
Definition logStreamNotFound : JsError.t :=
  JsError.mk true "Error" (Some "LogStream not found.") None.

(** [nextToken] once its send has settled.  [output.logStreams?.length === 0]
    is false when the list is absent, and
    [output.logStreams?.[0].uploadSequenceToken] is then [undefined]. *)
Definition nextToken (r : DescribeResult) (st : State) : Completion * State :=
  match r with
  | DescribeRejected error => (Thrown error, st)
  | Described None => (Returned, set_sequenceToken None st)
  | Described (Some []) => (Thrown logStreamNotFound, st)
  | Described (Some (first :: _)) =>
      (Returned, set_sequenceToken (LogStream.uploadSequenceToken first) st)
  end.

(** The answers of the remote service to the three sends of the bootstrap;
    an answer is not looked at when its send is not reached. *)
Record BootAnswers : Type := mkAnswers {
  group_answer : CreateResult;
  stream_answer : CreateResult;
  describe_answer : DescribeResult
}.

(** The [try] block of the transport initialization: the commands sent, how
    the block finishes, and the state. *)
Definition bootstrap (logGroupName logStreamName : string) (a : BootAnswers)
           (st : State) : list BootCommand * Completion * State :=
  match createLogGroup (group_answer a) with
  | Thrown e => ([CreateLogGroupCommand logGroupName], Thrown e, st)
  | Returned =>
      match createLogStream (stream_answer a) with
      | Thrown e =>
          ([CreateLogGroupCommand logGroupName;
            CreateLogStreamCommand logGroupName logStreamName], Thrown e, st)
      | Returned =>
          let (c, st') := nextToken (describe_answer a) st in
          ([CreateLogGroupCommand logGroupName;
            CreateLogStreamCommand logGroupName logStreamName;
            DescribeLogStreamsCommand logGroupName logStreamName], c, st')
      end
  end.

Definition initializationError (e : JsError.t) : ErrorLog.t :=
  ErrorLog.mk "pino-cloudwatch-transport initialization error"
              (JsError.message e).

(** The transport from the creation of its closure at time [t0] to the
    point where the producer loop is built: the [try] block, and in its
    [catch], reached at time [now], [addErrorLog], whose [flush()] the
    initialization awaits before the loop exists. *)
Definition initialize (interval : Z) (logGroupName logStreamName : string)
           (t0 now : Z) (a : BootAnswers) : list BootCommand * State :=
  match bootstrap logGroupName logStreamName a (init t0 None) with
  | (cmds, Returned, st) => (cmds, st)
  | (cmds, Thrown e, st) =>
      let (shouldFlush, st') :=
        addErrorLog interval now (initializationError e) st in
      (cmds, if shouldFlush then set_loop (FlushQueued 0) st' else st')
  end.

(** A create answer that lets the bootstrap go on. *)
Definition create_accepted (r : CreateResult) : Prop :=
  r = Created \/
  exists error,
    r = CreateRejected error /\
    JsError.instanceofError error = true /\
    JsError.name error = "ResourceAlreadyExistsException".

(** ** Notions for the further properties *)

(** The token held once a send has settled as [r], given the one held
    before. *)
Definition token_after (r : SendResult) (held : option string)
  : option string :=
  match r with
  | Resolved nextSequenceToken => nextSequenceToken
  | Rejected error =>
      if isInvalidSequenceTokenException error
      then JsError.expectedSequenceToken error
      else held
  end.

Definition is_settle (ev : Event) : bool :=
  match ev with
  | Settle _ _ => true
  | _ => false
  end.

(** The records the source yields in [evs], in order. *)
Definition produced (evs : list Event) : list LogEvent :=
  flat_map (fun ev => match ev with
                      | Produce _ obj => [obj]
                      | _ => []
                      end) evs.

(** A record the transport builds itself when a flush fails. *)
Definition is_flush_error_record (r : LogEvent) : Prop :=
  exists now e, r = errorRecord now (flushingError e).

(** [P] holds of every record the state holds or has sent. *)
Definition all_records (P : LogEvent -> Prop) (st : State) : Prop :=
  Forall P (bufferedLogs st) /\
  Forall P (immediates st) /\
  Forall (fun cmd => Forall P (Put.logEvents cmd)) (sent st).

(** [evs] are arrivals only, each at most [interval] after the one before,
    the first at most [interval] after [last]. *)
Fixpoint arrivals_within (interval last : Z) (evs : list Event) : Prop :=
  match evs with
  | [] => True
  | Produce now _ :: evs' =>
      now - last <= interval /\ arrivals_within interval now evs'
  | _ :: _ => False
  end.

(** [lastFlush] after the arrivals [evs]. *)
Fixpoint last_arrival (last : Z) (evs : list Event) : Z :=
  match evs with
  | Produce now _ :: evs' => last_arrival now evs'
  | _ => last
  end.

(** A full buffer whose flush is queued, with the record that overflowed it
    waiting for its retry. *)
Definition retry_waiting_on_full_buffer : State :=
  mkState [largest_record 1; largest_record 2; largest_record 3]
          3 None [largest_record 4] (FlushQueued 0) [].

(** An event other than a retry and other than a send rejected with an
    error that is not a token conflict. *)
Definition is_smooth (ev : Event) : bool :=
  match ev with
  | Immediate _ => false
  | Settle (Rejected e) _ => isInvalidSequenceTokenException e
  | _ => true
  end.

(** The count the buffer may hold: under the ceiling while the loop waits
    for a record, at most the ceiling while a flush is pending. *)
Definition count_kept (st : State) : Prop :=
  match loop st with
  | Idle => Z.of_nat (List.length (bufferedLogs st)) < MAX_BUFFER_LENGTH
  | _ => Z.of_nat (List.length (bufferedLogs st)) <= MAX_BUFFER_LENGTH
  end /\
  Forall (fun cmd =>
            Z.of_nat (List.length (Put.logEvents cmd)) <= MAX_BUFFER_LENGTH)
         (sent st).

(** ** Timestamps of any type

    [parseLine] stores [value.time || Date.now()], so the records the loop
    hands to [addLog] can carry a timestamp that is not a number.  The
    comparator of [orderLogs] subtracts timestamps; what follows is that
    subtraction on any value, and [orderLogs] on records as [parseLine]
    makes them.  The engine above is this code on records whose timestamps
    are numbers ([as_parsed]). *)

(** A number as far as the comparator needs it. *)
Inductive jsnum : Type :=
| Finite (z : Z)
| NaN.

(** A code unit that a string converting to a number can hold: white space,
    a digit, a sign, a dot, and the letters of the exponent, of the
    hexadecimal, octal and binary literals and of [Infinity]. *)
Definition numeric_char (c : ascii) : bool :=
  let n := nat_of_ascii c in
  (((9 <=? n) && (n <=? 13)) || (n =? 32) || (n =? 160)
   || ((48 <=? n) && (n <=? 57))
   || (n =? 43) || (n =? 45) || (n =? 46)
   || ((65 <=? n) && (n <=? 70)) || ((97 <=? n) && (n <=? 102))
   || (n =? 120) || (n =? 88) || (n =? 111) || (n =? 79)
   || (n =? 73) || (n =? 110) || (n =? 105) || (n =? 116)
   || (n =? 121))%nat.

Fixpoint all_numeric_chars (s : string) : bool :=
  match s with
  | EmptyString => true
  | String c s' => numeric_char c && all_numeric_chars s'
  end.

(** StringToNumber as far as the model decides it: a string that holds a
    code unit no numeric string can hold converts to NaN; for any other
    string the model gives no answer ([None]). *)
Definition StringToNumber (s : string) : option jsnum :=
  if all_numeric_chars s then None else Some NaN.

(** ToNumber; [None] where the model gives no answer (the strings above,
    and arrays and objects, whose conversion runs [toString]). *)
Definition ToNumber (v : jsval) : option jsnum :=
  match v with
  | JUndefined => Some NaN
  | JNull => Some (Finite 0)
  | JBool b => Some (Finite (if b then 1 else 0))
  | JNumber n => Some (Finite n)
  | JString s => StringToNumber s
  | JArray _ | JObject _ => None
  end.

(** [a - b] *)
Definition minus (a b : jsval) : option jsnum :=
  match ToNumber a, ToNumber b with
  | Some (Finite x), Some (Finite y) => Some (Finite (x - y))
  | Some NaN, Some _ => Some NaN
  | Some _, Some NaN => Some NaN
  | _, _ => None
  end.

(** What the sort makes of the comparator's result [v]: [v] itself, and +0
    when [v] is NaN.  Where the model has no answer 0 stands in, and
    nothing is stated about such records. *)
Definition sort_value (v : option jsnum) : Z :=
  match v with
  | Some (Finite z) => z
  | Some NaN => 0
  | None => 0
  end.

Module Untyped.
(** [(a, b) => a.timestamp - b.timestamp] *)
Definition comparefn (a b : LogRecord jsval) : Z :=
  sort_value (minus (timestamp a) (timestamp b)).

(** [getLogs().sort(...)] on the buffer as the loop fills it. *)
Definition orderLogs (logs : list (LogRecord jsval)) : list (LogRecord jsval) :=
  Array_sort comparefn logs.
End Untyped.

(** A record of the engine as [parseLine] and [addErrorLog] make it. *)
Definition as_parsed (r : LogEvent) : LogRecord jsval :=
  mkLog (JNumber (timestamp r)) (message r).

Definition numeric_timestamp (r : LogRecord jsval) : Prop :=
  exists n, timestamp r = JNumber n.

Definition NaN_timestamp (r : LogRecord jsval) : Prop :=
  ToNumber (timestamp r) = Some NaN.

Definition ascending_parsed (a b : LogRecord jsval) : Prop :=
  exists x y, timestamp a = JNumber x /\ timestamp b = JNumber y /\ x <= y.

Definition stamped_parsed (t : Z) (l : list (LogRecord jsval))
  : list (LogRecord jsval) :=
  filter (fun r => match timestamp r with
                   | JNumber n => n =? t
                   | _ => false
                   end) l.




(** ** The rate limiter *)





(** A record the transport builds itself when the bootstrap fails. *)
Definition is_initialization_error_record (r : LogEvent) : Prop :=
  exists now e, r = errorRecord now (initializationError e).

(** A command with at least one record, for the configured group and
    stream. *)
Definition addressed_command (g s : string) (cmd : Put.Command) : Prop :=
  Put.logEvents cmd <> [] /\
  Put.logGroupName cmd = g /\ Put.logStreamName cmd = s.
(** * Proofs *)

Lemma MAX_EVENT_SIZE_value : MAX_EVENT_SIZE = 262144.
Proof. reflexivity. Qed.

Lemma js_length_nonneg (s : string) : 0 <= js_length s.
Proof. unfold js_length. lia. Qed.

(** ** The size estimate *)

Lemma fold_size_shift (l : list LogEvent) (a : Z) :
  fold_left (fun acc curr => acc + js_length (message curr) + 26) l a
  = a + currentSize l.
Proof.
  unfold currentSize. revert a.
  induction l as [|x l IH]; intros a; simpl.
  - lia.
  - rewrite IH. rewrite (IH (js_length (message x) + 26)). lia.
Qed.

Lemma currentSize_nil : currentSize [] = 0.
Proof. reflexivity. Qed.

Lemma currentSize_cons (x : LogEvent) (l : list LogEvent) :
  currentSize (x :: l) = js_length (message x) + 26 + currentSize l.
Proof.
  unfold currentSize at 1. simpl. rewrite fold_size_shift. lia.
Qed.

Lemma currentSize_app (l1 l2 : list LogEvent) :
  currentSize (l1 ++ l2) = currentSize l1 + currentSize l2.
Proof.
  induction l1 as [|x l1 IH]; cbn [app].
  - rewrite currentSize_nil. lia.
  - rewrite !currentSize_cons, IH. lia.
Qed.

Lemma currentSize_nonneg (l : list LogEvent) : 0 <= currentSize l.
Proof.
  induction l as [|x l IH].
  - rewrite currentSize_nil. lia.
  - rewrite currentSize_cons. pose proof (js_length_nonneg (message x)). lia.
Qed.

Lemma currentSize_perm (l1 l2 : list LogEvent) :
  Permutation l1 l2 -> currentSize l1 = currentSize l2.
Proof.
  induction 1 as [|x l l' _ IH|x y l|l l' l'' _ IH1 _ IH2].
  - reflexivity.
  - rewrite !currentSize_cons, IH. reflexivity.
  - rewrite !currentSize_cons. lia.
  - congruence.
Qed.

(** ** The sort *)

Lemma sort_insert_perm (x : LogEvent) (l : list LogEvent) :
  Permutation (sort_insert by_timestamp x l) (x :: l).
Proof.
  induction l as [|y l IH]; simpl.
  - apply Permutation_refl.
  - destruct (0 <? by_timestamp x y).
    + apply perm_trans with (y :: x :: l).
      * apply perm_skip, IH.
      * apply perm_swap.
    + apply Permutation_refl.
Qed.

Lemma Array_sort_perm (l : list LogEvent) :
  Permutation (Array_sort by_timestamp l) l.
Proof.
  induction l as [|x l IH]; simpl.
  - apply perm_nil.
  - apply perm_trans with (x :: Array_sort by_timestamp l).
    + apply sort_insert_perm.
    + apply perm_skip, IH.
Qed.

Lemma sort_insert_hd (x a : LogEvent) (l : list LogEvent) :
  ascending a x -> HdRel ascending a l ->
  HdRel ascending a (sort_insert by_timestamp x l).
Proof.
  intros Hax Hal. destruct l as [|y l]; simpl.
  - constructor. exact Hax.
  - destruct (0 <? by_timestamp x y); constructor.
    + inversion Hal; assumption.
    + exact Hax.
Qed.

Lemma sort_insert_sorted (x : LogEvent) (l : list LogEvent) :
  Sorted ascending l -> Sorted ascending (sort_insert by_timestamp x l).
Proof.
  induction 1 as [|y l Hs IH Hhd]; simpl.
  - repeat constructor.
  - destruct (0 <? by_timestamp x y) eqn:E; unfold by_timestamp in E.
    + apply Z.ltb_lt in E. constructor.
      * exact IH.
      * apply sort_insert_hd; [unfold ascending; lia | exact Hhd].
    + apply Z.ltb_ge in E. constructor.
      * constructor; assumption.
      * constructor. unfold ascending. lia.
Qed.

Lemma Array_sort_sorted (l : list LogEvent) :
  Sorted ascending (Array_sort by_timestamp l).
Proof.
  induction l as [|x l IH]; simpl.
  - constructor.
  - apply sort_insert_sorted, IH.
Qed.

Lemma ascending_trans : Relations_1.Transitive ascending.
Proof. intros a b c. unfold ascending. lia. Qed.

Lemma sort_insert_stamped (t : Z) (x : LogEvent) (l : list LogEvent) :
  stamped t (sort_insert by_timestamp x l) = stamped t (x :: l).
Proof.
  unfold stamped. induction l as [|y l IH]; simpl.
  - reflexivity.
  - destruct (0 <? by_timestamp x y) eqn:E; unfold by_timestamp in E.
    + apply Z.ltb_lt in E. simpl. rewrite IH. simpl.
      destruct (timestamp x =? t) eqn:Ex, (timestamp y =? t) eqn:Ey;
        try reflexivity.
      apply Z.eqb_eq in Ex, Ey. lia.
    + reflexivity.
Qed.

Lemma Array_sort_stamped (t : Z) (l : list LogEvent) :
  stamped t (Array_sort by_timestamp l) = stamped t l.
Proof.
  induction l as [|x l IH]; simpl.
  - reflexivity.
  - rewrite sort_insert_stamped. unfold stamped in *. simpl. rewrite IH.
    reflexivity.
Qed.

(** ** [addLog], case by case *)

Section AddLog.

Variable interval : Z.

Lemma addLog_outcomes (now : Z) (log : LogEvent) (st : State) :
  addLog_outcome interval now log st (addLog interval now log st).
Proof.
  unfold addLog.
  destruct (logEventExceedsSize log) eqn:Hsize.
  - now apply Dropped.
  - destruct (reachedBufferSizeLimit log st) eqn:Hfull; simpl.
    + now apply Deferred.
    + destruct (reachedNumberOfLogsLimit (push log st)) eqn:Hcount.
      * now apply Pushed_full.
      * exact (Pushed_timed interval now log st Hsize Hfull Hcount).
Qed.

Lemma not_exceeding_admissible (log : LogEvent) :
  logEventExceedsSize log = false -> admissible log.
Proof.
  unfold logEventExceedsSize, admissible. intros H.
  rewrite Z.geb_leb in H. apply Z.leb_gt in H. exact H.
Qed.

Lemma exceeding_not_admissible (log : LogEvent) :
  logEventExceedsSize log = true -> ~ admissible log.
Proof.
  unfold logEventExceedsSize, admissible. intros H.
  rewrite Z.geb_leb in H. apply Z.leb_le in H. lia.
Qed.

Lemma push_within_limits (log : LogEvent) (st : State) :
  logEventExceedsSize log = false ->
  reachedBufferSizeLimit log st = false ->
  Forall admissible (bufferedLogs st) ->
  within_limits (bufferedLogs st ++ [log]).
Proof.
  intros Hsize Hfull Hbuf. split.
  - apply Forall_app. split; [exact Hbuf|].
    constructor; [now apply not_exceeding_admissible | constructor].
  - unfold reachedBufferSizeLimit in Hfull.
    rewrite Z.geb_leb in Hfull. apply Z.leb_gt in Hfull.
    rewrite currentSize_app, currentSize_cons, currentSize_nil. lia.
Qed.

(** What [addLog] can do to the buffer and to the queue of immediates. *)
Lemma addLog_effect (now : Z) (log : LogEvent) (st : State) :
  let st' := snd (addLog interval now log st) in
  loop st' = loop st /\ sent st' = sent st /\
  sequenceToken st' = sequenceToken st /\
  ((bufferedLogs st' = bufferedLogs st /\ immediates st' = immediates st) \/
   (bufferedLogs st' = bufferedLogs st ++ [log] /\
    immediates st' = immediates st /\
    logEventExceedsSize log = false /\
    reachedBufferSizeLimit log st = false) \/
   (bufferedLogs st' = bufferedLogs st /\
    immediates st' = immediates st ++ [log] /\
    logEventExceedsSize log = false /\
    reachedBufferSizeLimit log st = true)).
Proof.
  destruct (addLog_outcomes now log st); simpl; auto 10.
Qed.

Lemma addLog_limits (now : Z) (log : LogEvent) (st : State) :
  limits_kept st -> limits_kept (snd (addLog interval now log st)).
Proof.
  intros (Hbuf & Himm & Hsent).
  destruct (addLog_effect now log st) as (_ & Hs & _ & Hcases).
  set (st' := snd (addLog interval now log st)) in *.
  unfold limits_kept. rewrite Hs.
  destruct Hcases as [(Hb & Hi)|[(Hb & Hi & Hsize & Hfull)
                                |(Hb & Hi & Hsize & _)]];
    rewrite Hb, Hi; repeat split; try assumption; try apply Hbuf.
  - apply (push_within_limits log st Hsize Hfull), Hbuf.
  - apply (push_within_limits log st Hsize Hfull), Hbuf.
  - apply Forall_app. split; [exact Himm|].
    constructor; [now apply not_exceeding_admissible | constructor].
Qed.

Lemma addLog_in_flight (now : Z) (log : LogEvent) (st : State) :
  in_flight_buffered st ->
  in_flight_buffered (snd (addLog interval now log st)).
Proof.
  intros Hfly depth Hd.
  destruct (addLog_effect now log st) as (Hloop & Hs & _ & Hcases).
  set (st' := snd (addLog interval now log st)) in *.
  rewrite Hloop in Hd.
  destruct (Hfly depth Hd) as (earlier & cmd & tail & Hs' & Hne & Hb).
  assert (Hprefix : exists tail', bufferedLogs st' = bufferedLogs st ++ tail').
  { destruct Hcases as [(Hb' & _)|[(Hb' & _)|(Hb' & _)]].
    - exists []. now rewrite app_nil_r.
    - now exists [log].
    - exists []. now rewrite app_nil_r. }
  destruct Hprefix as (tail' & Hb').
  exists earlier, cmd, (tail ++ tail'). repeat split.
  - now rewrite Hs.
  - exact Hne.
  - rewrite Hb', Hb, app_assoc. reflexivity.
Qed.

End AddLog.


(** ** Every execution keeps [Inv] *)

Section Executions.

Variable interval : Z.
Variables logGroupName logStreamName : string.

Lemma Inv_init (t0 : Z) (token : option string) : Inv (init t0 token).
Proof.
  unfold Inv, limits_kept, init, within_limits, in_flight_buffered; simpl.
  repeat split; try constructor. discriminate.
Qed.

Lemma not_in_flight (st : State) :
  (forall depth, loop st <> PutInFlight depth) -> in_flight_buffered st.
Proof. intros H depth Hd. now destruct (H depth). Qed.

Lemma flush_finally_Inv (st : State) : limits_kept st -> Inv (flush_finally st).
Proof.
  intros (Hbuf & Himm & Hsent). split.
  - unfold limits_kept, flush_finally; simpl.
    repeat split; try assumption; constructor.
  - apply not_in_flight. discriminate.
Qed.

Lemma within_limits_sorted (l : list LogEvent) :
  within_limits l -> within_limits (Array_sort by_timestamp l).
Proof.
  intros (Hall & Hsize). split.
  - eapply Permutation_Forall; [|exact Hall].
    apply Permutation_sym, Array_sort_perm.
  - rewrite (currentSize_perm _ _ (Array_sort_perm l)). exact Hsize.
Qed.

Lemma orderLogs_limits (st : State) :
  limits_kept st -> limits_kept (orderLogs st).
Proof.
  intros (Hbuf & Himm & Hsent). unfold limits_kept, orderLogs; simpl.
  repeat split; try assumption; now apply within_limits_sorted.
Qed.

Lemma flush_start_Inv (depth : nat) (st : State) :
  limits_kept st -> Inv (flush_start logGroupName logStreamName depth st).
Proof.
  intros Hlim. apply orderLogs_limits in Hlim.
  unfold flush_start, putEventLogs_command.
  set (st1 := orderLogs st) in *.
  destruct (getLogs st1) as [|x l] eqn:E.
  - now apply flush_finally_Inv.
  - destruct Hlim as (Hbuf & Himm & Hsent). unfold getLogs in E. split.
    + unfold limits_kept; simpl. repeat split; try assumption;
        try apply Hbuf.
      apply Forall_app. split; [exact Hsent|].
      constructor; [simpl; now rewrite <- E | constructor].
    + intros d _. simpl.
      exists (sent st1),
        (Put.mk (x :: l) logGroupName logStreamName (sequenceToken st1)), [].
      simpl. repeat split; [discriminate | now rewrite app_nil_r].
Qed.

Lemma flush_settle_Inv (depth : nat) (now : Z) (r : SendResult) (st : State) :
  limits_kept st ->
  Inv (flush_settle interval depth now r st).
Proof.
  intros Hlim. unfold flush_settle, putEventLogs_settle.
  destruct r as [next|error].
  - now apply flush_finally_Inv.
  - destruct (isInvalidSequenceTokenException error).
    + now apply flush_finally_Inv.
    + unfold addErrorLog.
      pose proof (addLog_limits interval now
                    (errorRecord now (flushingError error)) st Hlim) as H.
      destruct (addLog interval now _ st) as [shouldFlush st2]. simpl in H.
      destruct shouldFlush.
      * split; [exact H | apply not_in_flight; discriminate].
      * now apply flush_finally_Inv.
Qed.

Lemma step_Inv (ev : Event) (st st' : State) :
  Inv st -> step interval logGroupName logStreamName ev st = Some st' ->
  Inv st'.
Proof.
  intros (Hlim & Hfly) Hstep. unfold step in Hstep.
  destruct ev as [now obj|now| |r now].
  - destruct (loop st) eqn:Hloop; try discriminate.
    pose proof (addLog_limits interval now obj st Hlim) as H.
    pose proof (addLog_effect interval now obj st) as (Hl & _).
    destruct (addLog interval now obj st) as [shouldFlush st1].
    simpl in H, Hl. injection Hstep as <-.
    destruct shouldFlush.
    + split; [exact H | apply not_in_flight; discriminate].
    + split; [exact H | apply not_in_flight; rewrite Hl, Hloop; discriminate].
  - assert (Hq : match immediates st with
                 | log :: rest =>
                     Some (snd (addLog interval now log (set_immediates rest st)))
                 | [] => None
                 end = Some st') by (destruct (loop st); exact Hstep).
    clear Hstep. destruct (immediates st) as [|log rest] eqn:E;
      [discriminate|]. injection Hq as <-.
    split.
    + apply addLog_limits. destruct Hlim as (Hbuf & Himm & Hsent).
      unfold limits_kept; simpl. repeat split; try assumption;
        try apply Hbuf.
      rewrite E in Himm. now inversion Himm.
    + apply addLog_in_flight. exact Hfly.
  - destruct (loop st); try discriminate. injection Hstep as <-.
    now apply flush_start_Inv.
  - destruct (loop st); try discriminate. injection Hstep as <-.
    now apply flush_settle_Inv.
Qed.

Lemma run_Inv (evs : list Event) (st st' : State) :
  Inv st -> run interval logGroupName logStreamName evs st = Some st' ->
  Inv st'.
Proof.
  revert st. induction evs as [|ev evs IH]; intros st Hinv Hrun; simpl in Hrun.
  - now injection Hrun as <-.
  - destruct (step interval logGroupName logStreamName ev st) as [st1|] eqn:E;
      [|discriminate].
    eapply IH; [|exact Hrun]. eapply step_Inv; eassumption.
Qed.

Lemma reachable_Inv (evs : list Event) (t0 : Z) (token : option string)
      (st : State) :
  run interval logGroupName logStreamName evs (init t0 token) = Some st ->
  Inv st.
Proof. apply run_Inv, Inv_init. Qed.

End Executions.

(** ** The claims about [addLog] *)

Lemma step_Immediate (interval : Z) (g s : string) (now : Z) (st : State) :
  step interval g s (Immediate now) st =
  match immediates st with
  | log :: rest => Some (snd (addLog interval now log (set_immediates rest st)))
  | [] => None
  end.
Proof. unfold step. destruct (loop st); reflexivity. Qed.

Lemma empty_buffer_has_room (log : LogEvent) (st : State) :
  logEventExceedsSize log = false -> bufferedLogs st = [] ->
  reachedBufferSizeLimit log st = false.
Proof.
  intros Hsize Hempty. apply not_exceeding_admissible in Hsize.
  unfold admissible in Hsize. rewrite MAX_EVENT_SIZE_value in Hsize.
  unfold reachedBufferSizeLimit. rewrite Hempty, currentSize_nil.
  rewrite Z.geb_leb. apply Z.leb_gt. unfold MAX_BUFFER_SIZE. lia.
Qed.

(** C2: a record whose message length is at least 262144 is rejected by
    [addLog]: the call returns [false] and leaves the whole state, the buffer
    included, as it was; and in no execution of the transport does such a
    record belong to a batch passed to [client.send]. *)
Theorem oversize_record_never_transmitted
        (interval : Z) (g s : string) (now : Z) (log : LogEvent) (st : State) :
  js_length (message log) >= 262144 ->
  addLog interval now log st = (false, st) /\
  forall evs t0 token st' cmd,
    run interval g s evs (init t0 token) = Some st' ->
    In cmd (sent st') -> ~ In log (Put.logEvents cmd).
Proof.
  intros Hlen.
  assert (Hsize : logEventExceedsSize log = true).
  { unfold logEventExceedsSize. rewrite Z.geb_leb. apply Z.leb_le.
    rewrite MAX_EVENT_SIZE_value. lia. }
  split.
  - unfold addLog. now rewrite Hsize.
  - intros evs t0 token st' cmd Hrun Hcmd Hin.
    apply reachable_Inv in Hrun. destruct Hrun as ((_ & _ & Hsent) & _).
    rewrite Forall_forall in Hsent. destruct (Hsent cmd Hcmd) as (Hall & _).
    rewrite Forall_forall in Hall.
    exact (exceeding_not_admissible log Hsize (Hall log Hin)).
Qed.

Lemma oversize_record_never_transmitted_witness :
  js_length (message oversize_record) >= 262144 /\
  addLog 1000 1 oversize_record (init 0 None) = (false, init 0 None).
Proof.
  assert (H : js_length (message oversize_record) >= 262144)
    by (vm_compute; discriminate).
  split; [exact H|].
  exact (proj1 (oversize_record_never_transmitted
                  1000 "group" "stream" 1 oversize_record (init 0 None) H)).
Defined.

(** C3: a record under the per-record ceiling that would take the size
    estimate to the batch byte ceiling is not pushed: [addLog] leaves the
    buffer as it is, registers one [setImmediate] callback holding the record
    and returns [true].  When that callback runs it calls [addLog] on the
    same record again, after which the record is either the last one of the
    buffer or registered for another retry, so it is never dropped; once the
    buffer has been cleared the retry pushes it. *)
Theorem overflow_record_deferred_and_retried
        (interval : Z) (g s : string) (now : Z) (log : LogEvent) (st : State) :
  logEventExceedsSize log = false ->
  reachedBufferSizeLimit log st = true ->
  (exists st',
      addLog interval now log st = (true, st') /\
      bufferedLogs st' = bufferedLogs st /\
      immediates st' = immediates st ++ [log] /\
      lastFlush st' = lastFlush st /\ loop st' = loop st) /\
  forall now' st1 rest,
    immediates st1 = log :: rest ->
    exists st2,
      step interval g s (Immediate now') st1 = Some st2 /\
      st2 = snd (addLog interval now' log (set_immediates rest st1)) /\
      ((bufferedLogs st2 = bufferedLogs st1 ++ [log] /\ immediates st2 = rest) \/
       (bufferedLogs st2 = bufferedLogs st1 /\ immediates st2 = rest ++ [log])) /\
      (bufferedLogs st1 = [] ->
       bufferedLogs st2 = [log] /\ immediates st2 = rest).
Proof.
  intros Hsize Hfull. split.
  - exists (setImmediate log st). unfold addLog. rewrite Hsize, Hfull. simpl.
    repeat split.
  - intros now' st1 rest Hq.
    exists (snd (addLog interval now' log (set_immediates rest st1))).
    rewrite step_Immediate, Hq.
    destruct (addLog_effect interval now' log (set_immediates rest st1))
      as (_ & _ & _ & Hcases). simpl in Hcases.
    split; [reflexivity|]. split; [reflexivity|]. split.
    + destruct Hcases as [(Hb & Hi)|[(Hb & Hi & _)|(Hb & Hi & _)]].
      * exfalso.
        destruct (addLog_outcomes interval now' log (set_immediates rest st1))
          as [Hx| | |]; simpl in Hb, Hi.
        -- congruence.
        -- apply (f_equal (@List.length _)) in Hb.
           rewrite length_app in Hb. simpl in Hb. lia.
        -- apply (f_equal (@List.length _)) in Hb.
           rewrite length_app in Hb. simpl in Hb. lia.
        -- apply (f_equal (@List.length _)) in Hi.
           rewrite length_app in Hi. simpl in Hi. lia.
      * left. now split.
      * right. now split.
    + intros Hempty.
      assert (Hroom : reachedBufferSizeLimit log (set_immediates rest st1) = false)
        by (now apply empty_buffer_has_room).
      unfold addLog. rewrite Hsize, Hroom. simpl.
      destruct (reachedNumberOfLogsLimit (push log (set_immediates rest st1)));
        simpl; now rewrite Hempty.
Qed.

Lemma overflow_record_deferred_and_retried_witness :
  logEventExceedsSize (largest_record 4) = false /\
  reachedBufferSizeLimit (largest_record 4) three_largest = true /\
  exists st',
    addLog 1000 4 (largest_record 4) three_largest = (true, st') /\
    bufferedLogs st' = bufferedLogs three_largest /\
    immediates st' = immediates three_largest ++ [largest_record 4] /\
    lastFlush st' = lastFlush three_largest /\ loop st' = loop three_largest.
Proof.
  assert (H1 : logEventExceedsSize (largest_record 4) = false)
    by (vm_compute; reflexivity).
  assert (H2 : reachedBufferSizeLimit (largest_record 4) three_largest = true)
    by (vm_compute; reflexivity).
  split; [exact H1|]. split; [exact H2|].
  exact (proj1 (overflow_record_deferred_and_retried
                  1000 "group" "stream" 4 (largest_record 4) three_largest
                  H1 H2)).
Defined.

(** C6, as the code has it: a record under the per-record ceiling that the
    byte ceiling does not defer is pushed at the end of the buffer, and
    [addLog] returns [true] exactly when the buffer now holds exactly 10,000
    records or more than [interval] milliseconds have passed since
    [lastFlush].  [lastFlush] is set to the current time whenever the count
    is not exactly 10,000, in particular whenever the call returns [false];
    when the count is exactly 10,000 the periodic check is not evaluated and
    [lastFlush] keeps its value. *)
Theorem admitted_record_pushed_and_trigger
        (interval now : Z) (log : LogEvent) (st : State) :
  logEventExceedsSize log = false ->
  reachedBufferSizeLimit log st = false ->
  exists shouldFlush st',
    addLog interval now log st = (shouldFlush, st') /\
    bufferedLogs st' = bufferedLogs st ++ [log] /\
    immediates st' = immediates st /\
    (shouldFlush = true <->
     Z.of_nat (List.length (bufferedLogs st')) = 10000 \/
     now - lastFlush st > interval) /\
    (Z.of_nat (List.length (bufferedLogs st')) <> 10000 -> lastFlush st' = now) /\
    (Z.of_nat (List.length (bufferedLogs st')) = 10000 ->
     lastFlush st' = lastFlush st) /\
    (shouldFlush = false -> lastFlush st' = now).
Proof.
  intros Hsize Hfull. unfold addLog. rewrite Hsize, Hfull. simpl.
  destruct (reachedNumberOfLogsLimit (push log st)) eqn:Hcount;
    unfold reachedNumberOfLogsLimit, MAX_BUFFER_LENGTH in Hcount;
    simpl in Hcount.
  - apply Z.eqb_eq in Hcount.
    exists true, (push log st). simpl. repeat split; auto; try congruence.
  - apply Z.eqb_neq in Hcount.
    exists (now - lastFlush st >? interval), (set_lastFlush now (push log st)).
    simpl. repeat split; auto; try congruence.
    + intros H. right. rewrite Z.gtb_ltb in H. apply Z.ltb_lt in H. lia.
    + intros [H|H]; [congruence|].
      rewrite Z.gtb_ltb. apply Z.ltb_lt. lia.
Qed.

Lemma admitted_record_pushed_and_trigger_witness :
  logEventExceedsSize (mkLog 9 "{}") = false /\
  reachedBufferSizeLimit (mkLog 9 "{}") (init 0 None) = false /\
  exists shouldFlush st',
    addLog 1000 400 (mkLog 9 "{}") (init 0 None) = (shouldFlush, st') /\
    bufferedLogs st' = bufferedLogs (init 0 None) ++ [mkLog 9 "{}"] /\
    immediates st' = immediates (init 0 None) /\
    (shouldFlush = true <->
     Z.of_nat (List.length (bufferedLogs st')) = 10000 \/
     400 - lastFlush (init 0 None) > 1000) /\
    (Z.of_nat (List.length (bufferedLogs st')) <> 10000 -> lastFlush st' = 400) /\
    (Z.of_nat (List.length (bufferedLogs st')) = 10000 ->
     lastFlush st' = lastFlush (init 0 None)) /\
    (shouldFlush = false -> lastFlush st' = 400).
Proof.
  split; [reflexivity|]. split; [reflexivity|].
  apply (admitted_record_pushed_and_trigger 1000 400 (mkLog 9 "{}")
           (init 0 None)); reflexivity.
Defined.

(** C6 as stated fails: pushing the 10,000th record is an admitted append
    that returns [true] and leaves [lastFlush] at its old value 0 instead of
    the current time 5000. *)
Lemma count_trigger_keeps_reference_point :
  logEventExceedsSize (mkLog 9 "{}") = false /\
  reachedBufferSizeLimit (mkLog 9 "{}") one_short = false /\
  fst (addLog 1000 5000 (mkLog 9 "{}") one_short) = true /\
  lastFlush (snd (addLog 1000 5000 (mkLog 9 "{}") one_short)) = 0 /\
  lastFlush (snd (addLog 1000 5000 (mkLog 9 "{}") one_short)) <> 5000.
Proof.
  assert (H : lastFlush (snd (addLog 1000 5000 (mkLog 9 "{}") one_short)) = 0)
    by (vm_compute; reflexivity).
  repeat split; try (vm_compute; reflexivity); try exact H.
  rewrite H. discriminate.
Qed.

(** C10: when the callback of a deferred append runs, [addLog] is called on
    the record and its result is thrown away: whatever it returns, the
    producer loop and the flush it may be awaiting stay as they are, no
    flush is requested and nothing is sent. *)
Theorem deferred_retry_never_flushes
        (interval : Z) (g s : string) (now : Z) (log : LogEvent)
        (rest : list LogEvent) (st : State) :
  immediates st = log :: rest ->
  exists st',
    step interval g s (Immediate now) st = Some st' /\
    st' = snd (addLog interval now log (set_immediates rest st)) /\
    loop st' = loop st /\ sent st' = sent st.
Proof.
  intros Hq. rewrite step_Immediate, Hq.
  eexists. split; [reflexivity|]. split; [reflexivity|].
  destruct (addLog_effect interval now log (set_immediates rest st))
    as (Hloop & Hsent & _).
  split; [exact Hloop | exact Hsent].
Qed.

Lemma deferred_retry_never_flushes_witness :
  immediates retry_pending = [mkLog 7 "late"] /\
  fst (addLog 1000 5000 (mkLog 7 "late") (set_immediates [] retry_pending))
  = true /\
  exists st',
    step 1000 "group" "stream" (Immediate 5000) retry_pending = Some st' /\
    st' = snd (addLog 1000 5000 (mkLog 7 "late")
                 (set_immediates [] retry_pending)) /\
    loop st' = loop retry_pending /\ sent st' = sent retry_pending.
Proof.
  split; [reflexivity|]. split; [reflexivity|].
  apply (deferred_retry_never_flushes 1000 "group" "stream" 5000
           (mkLog 7 "late") [] retry_pending).
  reflexivity.
Defined.

(** ** [putEventLogs] *)

(** C4: when a non-empty batch is rejected with a token conflict carrying
    [expectedSequenceToken = X], [putEventLogs] returns without throwing and
    holds [X]; it has passed exactly one command to [client.send], the
    rejected one, and the command of the next non-empty submission carries
    [X]. *)
Theorem token_conflict_adopts_expected_token
        (g s : string) (logEvents : list LogEvent) (error : JsError.t)
        (X : option string) (st : State) :
  logEvents <> [] ->
  isInvalidSequenceTokenException error = true ->
  JsError.expectedSequenceToken error = X ->
  exists st',
    putEventLogs g s logEvents (Rejected error) st = (Returned, st') /\
    sequenceToken st' = X /\
    sent st' = sent st ++ [Put.mk logEvents g s (sequenceToken st)] /\
    bufferedLogs st' = bufferedLogs st /\
    forall next, next <> [] ->
      putEventLogs_command g s next st' = Some (Put.mk next g s X).
Proof.
  intros Hne Hconflict HX.
  unfold putEventLogs, putEventLogs_command, putEventLogs_settle.
  destruct logEvents as [|x l]; [contradiction|].
  rewrite Hconflict, HX. eexists. split; [reflexivity|]. simpl.
  repeat split.
  intros [|y next] Hnext; [contradiction|reflexivity].
Qed.

Lemma token_conflict_adopts_expected_token_witness :
  [mkLog 1 "{}"] <> [] /\
  isInvalidSequenceTokenException
    (JsError.mk true "InvalidSequenceTokenException" None (Some "49590")) = true /\
  exists st',
    putEventLogs "group" "stream" [mkLog 1 "{}"]
      (Rejected (JsError.mk true "InvalidSequenceTokenException" None
                            (Some "49590")))
      (init 0 (Some "stale")) = (Returned, st') /\
    sequenceToken st' = Some "49590" /\
    sent st' = sent (init 0 (Some "stale")) ++
               [Put.mk [mkLog 1 "{}"] "group" "stream"
                       (sequenceToken (init 0 (Some "stale")))] /\
    bufferedLogs st' = bufferedLogs (init 0 (Some "stale")) /\
    forall next, next <> [] ->
      putEventLogs_command "group" "stream" next st'
      = Some (Put.mk next "group" "stream" (Some "49590")).
Proof.
  split; [discriminate|]. split; [reflexivity|].
  apply (token_conflict_adopts_expected_token "group" "stream" [mkLog 1 "{}"]
           (JsError.mk true "InvalidSequenceTokenException" None (Some "49590"))
           (Some "49590") (init 0 (Some "stale")));
    [discriminate | reflexivity | reflexivity].
Defined.

(** ** The ceilings at the moment of a flush *)

(** Every batch passed to [client.send] has a size estimate under the batch
    byte ceiling. *)
Lemma byte_ceiling_at_every_flush
      (interval : Z) (g s : string) (evs : list Event) (t0 : Z)
      (token : option string) (st : State) (cmd : Put.Command) :
  run interval g s evs (init t0 token) = Some st ->
  In cmd (sent st) ->
  currentSize (Put.logEvents cmd) < 1048576.
Proof.
  intros Hrun Hcmd. apply reachable_Inv in Hrun.
  destruct Hrun as ((_ & _ & Hsent) & _).
  rewrite Forall_forall in Hsent. now destruct (Hsent cmd Hcmd).
Qed.

(** ** The flush that fails *)

Lemma LogEvent_eqb_eq (a b : LogEvent) : LogEvent_eqb a b = true -> a = b.
Proof.
  unfold LogEvent_eqb. intros H. apply andb_prop in H. destruct H as (Ht & Hm).
  apply Z.eqb_eq in Ht. apply String.eqb_eq in Hm.
  destruct a, b; simpl in *. congruence.
Qed.

Lemma batch_eqb_eq (l1 l2 : list LogEvent) : batch_eqb l1 l2 = true -> l1 = l2.
Proof.
  revert l2. induction l1 as [|a l1 IH]; intros [|b l2] H; simpl in H;
    try discriminate; try reflexivity.
  apply andb_prop in H. destruct H as (Hab & Hl).
  f_equal; [now apply LogEvent_eqb_eq | now apply IH].
Qed.

Lemma sent_twice_sound (outcome : option State) :
  sent_twice outcome = true ->
  exists st c1 c2,
    outcome = Some st /\ sent st = [c1; c2] /\
    Put.logEvents c1 = Put.logEvents c2 /\
    Put.sequenceToken c1 = Put.sequenceToken c2 /\
    Put.logEvents c1 <> [].
Proof.
  unfold sent_twice. destruct outcome as [st|]; [|discriminate].
  destruct (sent st) as [|c1 [|c2 [|c3 l]]] eqn:Es; try discriminate.
  intros H. apply andb_prop in H. destruct H as (H & Htok).
  apply andb_prop in H. destruct H as (Heq & Hne).
  exists st, c1, c2.
  split; [reflexivity|]. split; [exact Es|]. split; [|split].
  - now apply batch_eqb_eq.
  - destruct (Put.sequenceToken c1), (Put.sequenceToken c2);
      try discriminate; try reflexivity.
    apply String.eqb_eq in Htok. now subst.
  - destruct (Put.logEvents c1); [discriminate | discriminate].
Qed.

(** A failure within the interval: the error record is pushed and then
    cleared with the rest of the buffer by the same flush.  The final state
    holds it nowhere and the only command sent is the rejected one. *)
Lemma error_record_cleared_with_the_batch :
  run 1000 "group" "stream" failure_within_interval (init 0 None)
  = Some (mkState [] 2500 None [] Idle
                  [Put.mk [mkLog 2000 "{}"] "group" "stream" None]).
Proof. vm_compute. reflexivity. Qed.

(** C5: the code breaks the claim.  With the buffer within 43 units of the
    byte ceiling the send is rejected, the error record is deferred by the
    byte ceiling, [addErrorLog] calls [flush()] before [finally] clears the
    buffer, and the failing batch is submitted a second time, verbatim and
    with the same token. *)
Lemma failed_batch_resubmitted_verbatim :
  exists st c1 c2,
    run 1000 "group" "stream" failure_on_full_buffer (init 0 None) = Some st /\
    sent st = [c1; c2] /\
    Put.logEvents c1 = Put.logEvents c2 /\
    Put.sequenceToken c1 = Put.sequenceToken c2 /\
    Put.logEvents c1 <> [].
Proof. apply sent_twice_sound. vm_compute. reflexivity. Qed.

(** ** [parseLine] *)

(** C8 as stated fails: the line [{"time":0}] parses to an object that
    carries a [time] field, yet the record's timestamp is the clock reading
    and not that field. *)
Lemma falsy_time_replaced_by_clock :
  get_time (JObject [("time", JNumber 0)]) = Some (JNumber 0) /\
  parseLine (Some (JObject [("time", JNumber 0)])) 1700000000000 line_time_zero
  = Some (mkLog (JNumber 1700000000000) line_time_zero) /\
  JNumber 1700000000000 <> JNumber 0.
Proof. repeat split. discriminate. Qed.

(** The line [null] parses, and reading [time] from the result throws: no
    record is produced. *)
Lemma parseLine_null_throws (now : Z) : parseLine (Some JNull) now "null" = None.
Proof. reflexivity. Qed.

(** The two examples of the specification. *)
Lemma parseLine_time_1000 (now : Z) :
  parseLine (Some (JObject [("time", JNumber 1000); ("msg", JString "a")]))
            now line_time_1000
  = Some (mkLog (JNumber 1000) line_time_1000).
Proof. reflexivity. Qed.

Lemma parseLine_not_json (now : Z) :
  parseLine None now "not-json" = Some (mkLog (JNumber now) "not-json").
Proof. reflexivity. Qed.

(** C8, as the code has it: whenever [JSON.parse] throws or returns a value
    other than [null], [parseLine] produces a record whose message is the
    raw line; its timestamp is the value's [time] property when that is
    truthy, and the clock reading when the property is absent or falsy and
    when the line does not parse. *)
Theorem parseLine_message_and_timestamp
        (parsed : option jsval) (now : Z) (line : string) :
  parsed <> Some JNull -> parsed <> Some JUndefined ->
  exists r,
    parseLine parsed now line = Some r /\
    message r = line /\
    (forall value time,
        parsed = Some value -> get_time value = Some time ->
        truthy time = true -> timestamp r = time) /\
    (forall value time,
        parsed = Some value -> get_time value = Some time ->
        truthy time = false -> timestamp r = JNumber now) /\
    (parsed = None -> timestamp r = JNumber now).
Proof.
  intros Hnull Hundef. unfold parseLine.
  destruct parsed as [value|].
  - destruct (get_time value) as [time|] eqn:E.
    + eexists. split; [reflexivity|]. simpl. split; [reflexivity|].
      unfold js_or. repeat split.
      * intros v t Hv Ht Htruthy. injection Hv as <-. rewrite E in Ht.
        injection Ht as <-. now rewrite Htruthy.
      * intros v t Hv Ht Hfalsy. injection Hv as <-. rewrite E in Ht.
        injection Ht as <-. now rewrite Hfalsy.
      * discriminate.
    + destruct value; try discriminate E; now contradiction.
  - eexists. split; [reflexivity|]. simpl. split; [reflexivity|].
    repeat split; try discriminate. 
Qed.

Lemma parseLine_message_and_timestamp_witness :
  @None jsval <> Some JNull /\ @None jsval <> Some JUndefined /\
  exists r,
    parseLine None 1700000000000 "not-json" = Some r /\
    message r = "not-json" /\
    (forall value time,
        @None jsval = Some value -> get_time value = Some time ->
        truthy time = true -> timestamp r = time) /\
    (forall value time,
        @None jsval = Some value -> get_time value = Some time ->
        truthy time = false -> timestamp r = JNumber 1700000000000) /\
    (@None jsval = None -> timestamp r = JNumber 1700000000000).
Proof.
  split; [discriminate|]. split; [discriminate|].
  apply (parseLine_message_and_timestamp None 1700000000000 "not-json");
    discriminate.
Defined.

(** ** The count ceiling *)

Lemma run_app (interval : Z) (g s : string) (evs1 evs2 : list Event)
      (st : State) :
  run interval g s (evs1 ++ evs2) st =
  match run interval g s evs1 st with
  | Some st' => run interval g s evs2 st'
  | None => None
  end.
Proof.
  revert st. induction evs1 as [|ev evs1 IH]; intros st; simpl.
  - reflexivity.
  - destruct (step interval g s ev st); [apply IH | reflexivity].
Qed.

Lemma currentSize_repeat (r : LogEvent) (n : nat) :
  currentSize (repeat r n) = Z.of_nat n * (js_length (message r) + 26).
Proof.
  induction n as [|n IH].
  - reflexivity.
  - cbn [repeat]. rewrite currentSize_cons, IH. lia.
Qed.

(** One more short record, pushed within the interval and below the count
    ceiling: no flush is asked for. *)
Lemma produce_short_record (g s : string) (j : nat) (t : Z) :
  Z.of_nat j < 9999 -> 5 - t <= 1000 ->
  step 1000 g s (Produce 5 (mkLog 5 "{}"))
       (mkState (repeat (mkLog 5 "{}") j) t None [] Idle [])
  = Some (mkState (repeat (mkLog 5 "{}") (S j)) 5 None [] Idle []).
Proof.
  intros Hj Ht.
  set (r := mkLog 5 "{}").
  set (st := mkState (repeat r j) t None [] Idle []).
  assert (Hsize : logEventExceedsSize r = false) by reflexivity.
  assert (Hfull : reachedBufferSizeLimit r st = false).
  { unfold reachedBufferSizeLimit, st; simpl bufferedLogs.
    rewrite currentSize_repeat. rewrite Z.geb_leb. apply Z.leb_gt.
    change (js_length (message r)) with 2. unfold MAX_BUFFER_SIZE. lia. }
  assert (Hcount : reachedNumberOfLogsLimit (push r st) = false).
  { unfold reachedNumberOfLogsLimit, push, st; simpl bufferedLogs.
    rewrite length_app, repeat_length. simpl List.length.
    apply Z.eqb_neq. unfold MAX_BUFFER_LENGTH. lia. }
  assert (Htime : (5 - t >? 1000) = false).
  { rewrite Z.gtb_ltb. apply Z.ltb_ge. lia. }
  unfold step. change (loop st) with Idle. cbv iota.
  unfold addLog. rewrite Hsize, Hfull. cbn [negb]. cbv iota zeta.
  rewrite Hcount. unfold shouldDoAPeriodicFlush.
  change (lastFlush (push r st)) with t. rewrite Htime.
  unfold set_lastFlush, push, set_bufferedLogs, st; simpl.
  rewrite <- repeat_cons. reflexivity.
Qed.

Lemma produce_short_records (g s : string) (k j : nat) (t : Z) :
  Z.of_nat (j + k) <= 9999 -> 5 - t <= 1000 ->
  run 1000 g s (repeat (Produce 5 (mkLog 5 "{}")) k)
      (mkState (repeat (mkLog 5 "{}") j) t None [] Idle [])
  = Some (mkState (repeat (mkLog 5 "{}") (j + k))
                  (match k with O => t | S _ => 5 end) None [] Idle []).
Proof.
  revert j t. induction k as [|k IH]; intros j t Hjk Ht.
  - simpl. now rewrite Nat.add_0_r.
  - cbn [repeat run]. rewrite produce_short_record; [|lia|exact Ht].
    rewrite IH; [|lia|lia].
    replace (S j + k)%nat with (j + S k)%nat by lia.
    now destruct k.
Qed.

(** C1 fails on the count: after 10,000 records the flush is triggered; when
    the service rejects it, the error record is pushed onto the 10,000
    records still buffered, the periodic check asks for a flush, and that
    flush passes 10,001 records to [client.send]. *)
Theorem count_ceiling_exceeded_after_failed_flush :
  batch_sizes (run 1000 "group" "stream" full_batch_then_failure (init 0 None))
  = Some [10000; 10001].
Proof.
  unfold full_batch_then_failure.
  change (Z.to_nat 10000) with (Z.to_nat 9999 + 1)%nat.
  rewrite repeat_app, <- app_assoc, run_app.
  change (init 0 None) with (mkState (repeat (mkLog 5 "{}") 0) 0 None [] Idle []).
  rewrite produce_short_records; [|vm_compute; discriminate|lia].
  vm_compute. reflexivity.
Qed.

(** ** Facts about the bootstrap used below *)

Lemma create_accepted_returns (r : CreateResult) :
  create_accepted r ->
  createLogGroup r = Returned /\ createLogStream r = Returned.
Proof.
  intros [->|(error & -> & Hinst & Hname)]; [split; reflexivity|].
  unfold createLogGroup, createLogStream, isResourceAlreadyExistsException.
  rewrite Hinst, Hname. split; reflexivity.
Qed.

Lemma bootstrap_state (g s : string) (a : BootAnswers) (st : State) :
  exists token,
    snd (bootstrap g s a st) = set_sequenceToken token st /\
    (forall e, snd (fst (bootstrap g s a st)) = Thrown e ->
               token = sequenceToken st).
Proof.
  unfold bootstrap.
  destruct (createLogGroup (group_answer a)) as [|e1]; simpl.
  - destruct (createLogStream (stream_answer a)) as [|e2]; simpl.
    + unfold nextToken.
      destruct (describe_answer a) as [[[|first others]|]|e3]; simpl.
      * exists (sequenceToken st). split; [now destruct st | reflexivity].
      * exists (LogStream.uploadSequenceToken first).
        split; [reflexivity | discriminate].
      * exists None. split; [reflexivity | discriminate].
      * exists (sequenceToken st). split; [now destruct st | reflexivity].
    + exists (sequenceToken st). split; [now destruct st | reflexivity].
  - exists (sequenceToken st). split; [now destruct st | reflexivity].
Qed.


(** ** [orderLogs] on timestamps of any type *)

Lemma sort_insert_map {A B : Type} (f : A -> B) (cmpA : A -> A -> Z)
      (cmpB : B -> B -> Z) (x : A) (l : list A) :
  (forall a b, cmpB (f a) (f b) = cmpA a b) ->
  sort_insert cmpB (f x) (map f l) = map f (sort_insert cmpA x l).
Proof.
  intros Hcmp. induction l as [|y l IH]; simpl.
  - reflexivity.
  - rewrite Hcmp. destruct (0 <? cmpA x y); simpl; [now rewrite IH | reflexivity].
Qed.

Lemma Array_sort_map {A B : Type} (f : A -> B) (cmpA : A -> A -> Z)
      (cmpB : B -> B -> Z) (l : list A) :
  (forall a b, cmpB (f a) (f b) = cmpA a b) ->
  Array_sort cmpB (map f l) = map f (Array_sort cmpA l).
Proof.
  intros Hcmp. induction l as [|x l IH]; simpl.
  - reflexivity.
  - rewrite IH. now apply sort_insert_map.
Qed.

Lemma comparefn_as_parsed (a b : LogEvent) :
  Untyped.comparefn (as_parsed a) (as_parsed b) = by_timestamp a b.
Proof. reflexivity. Qed.

(** On records whose timestamps are numbers the engine's [orderLogs] is the
    source's. *)
Lemma orderLogs_as_parsed (l : list LogEvent) :
  Untyped.orderLogs (map as_parsed l) = map as_parsed (Array_sort by_timestamp l).
Proof. apply Array_sort_map, comparefn_as_parsed. Qed.

Lemma numeric_are_parsed (logs : list (LogRecord jsval)) :
  Forall numeric_timestamp logs -> exists l, logs = map as_parsed l.
Proof.
  induction 1 as [|r logs (n & Hn) _ (l & ->)].
  - now exists [].
  - exists (mkLog n (message r) :: l). simpl. f_equal.
    destruct r as [t m]. simpl in Hn. now subst t.
Qed.

Lemma as_parsed_sorted (l : list LogEvent) :
  StronglySorted ascending l ->
  StronglySorted ascending_parsed (map as_parsed l).
Proof.
  induction 1 as [|x l _ IH Hall]; simpl; constructor.
  - exact IH.
  - apply Forall_map. eapply Forall_impl; [|exact Hall].
    intros y Hxy. exists (timestamp x), (timestamp y). now repeat split.
Qed.

Lemma as_parsed_stamped (t : Z) (l : list LogEvent) :
  stamped_parsed t (map as_parsed l) = map as_parsed (stamped t l).
Proof.
  unfold stamped_parsed, stamped. induction l as [|x l IH]; simpl.
  - reflexivity.
  - rewrite IH. now destruct (timestamp x =? t).
Qed.

Lemma orderLogs_numeric (logs : list (LogRecord jsval)) :
  Forall numeric_timestamp logs ->
  Permutation (Untyped.orderLogs logs) logs /\
  StronglySorted ascending_parsed (Untyped.orderLogs logs) /\
  (forall t, stamped_parsed t (Untyped.orderLogs logs) = stamped_parsed t logs) /\
  Untyped.orderLogs (Untyped.orderLogs logs) = Untyped.orderLogs logs.
Proof.
  intros Hnum. destruct (numeric_are_parsed logs Hnum) as (l & ->).
  rewrite !orderLogs_as_parsed. repeat split.
  - apply Permutation_map, Array_sort_perm.
  - apply as_parsed_sorted,
      (Sorted_StronglySorted ascending_trans), Array_sort_sorted.
  - intros t. now rewrite !as_parsed_stamped, Array_sort_stamped.
  - f_equal. clear Hnum. pose proof (Array_sort_sorted l) as Hs.
    induction Hs as [|x l' Hs IH Hhd]; simpl; [reflexivity|].
    rewrite IH. destruct Hhd as [|y l'' Hxy]; simpl; [reflexivity|].
    unfold ascending in Hxy. unfold by_timestamp.
    destruct (0 <? timestamp x - timestamp y) eqn:E; [|reflexivity].
    apply Z.ltb_lt in E. lia.
Qed.

Lemma orderLogs_NaN (logs : list (LogRecord jsval)) :
  Forall NaN_timestamp logs -> Untyped.orderLogs logs = logs.
Proof.
  unfold Untyped.orderLogs.
  induction 1 as [|x logs Hx Hall IH]; simpl.
  - reflexivity.
  - rewrite IH. destruct Hall as [|y logs' Hy _]; simpl; [reflexivity|].
    unfold Untyped.comparefn, minus, NaN_timestamp in *.
    now rewrite Hx, Hy.
Qed.

(** The records [parseLine] makes of lines with a numeric [time], or with no
    [time], are those the engine works on. *)
Lemma parseLine_numeric_record (properties : list (string * jsval))
      (t now : Z) (line : string) :
  property "time" properties = JNumber t -> t <> 0 ->
  parseLine (Some (JObject properties)) now line
  = Some (as_parsed (mkLog t line)) /\
  parseLine None now line = Some (as_parsed (mkLog now line)).
Proof.
  intros Hp Ht. unfold parseLine, get_time, js_or. rewrite Hp. simpl.
  apply Z.eqb_neq in Ht. rewrite Ht. split; reflexivity.
Qed.





(** * Further properties of the code *)

(** ** The end of a flush *)

(** X1: whichever way a flush ends (the buffer was empty, the send
    succeeded, the token was refused, or the send failed and the error record
    asked for no further flush), at the moment the producer loop is released
    the buffer is empty. *)
Theorem flush_end_leaves_buffer_empty
        (interval : Z) (g s : string) (ev : Event) (st st' : State) :
  step interval g s ev st = Some st' ->
  loop st <> Idle -> loop st' = Idle ->
  bufferedLogs st' = [].
Proof.
  intros Hstep Hbusy Hidle. destruct ev as [now obj|now| |r now].
  - unfold step in Hstep. destruct (loop st); [now destruct Hbusy| |];
      discriminate.
  - rewrite step_Immediate in Hstep.
    destruct (immediates st) as [|log rest]; [discriminate|].
    injection Hstep as <-.
    destruct (addLog_effect interval now log (set_immediates rest st))
      as (Hl & _). simpl in Hl. rewrite Hl in Hidle. now destruct Hbusy.
  - unfold step in Hstep. destruct (loop st); try discriminate.
    injection Hstep as <-. unfold flush_start in *.
    destruct (putEventLogs_command g s (getLogs (orderLogs st)) (orderLogs st)).
    + discriminate Hidle.
    + reflexivity.
  - unfold step in Hstep. destruct (loop st); try discriminate.
    injection Hstep as <-. unfold flush_settle in *.
    destruct (putEventLogs_settle r st) as [[|e] st1]; [reflexivity|].
    destruct (addErrorLog interval now (flushingError e) st1)
      as [[|] st2]; [discriminate Hidle | reflexivity].
Qed.

Lemma flush_end_leaves_buffer_empty_witness :
  step 1000 "group" "stream" (Settle (Resolved (Some "next")) 9)
       (mkState [mkLog 1 "{}"] 1 None [] (PutInFlight 0)
                [Put.mk [mkLog 1 "{}"] "group" "stream" None])
  = Some (mkState [] 1 (Some "next") [] Idle
                  [Put.mk [mkLog 1 "{}"] "group" "stream" None]) /\
  bufferedLogs (mkState [] 1 (Some "next") [] Idle
                  [Put.mk [mkLog 1 "{}"] "group" "stream" None]) = [].
Proof.
  assert (H : step 1000 "group" "stream" (Settle (Resolved (Some "next")) 9)
       (mkState [mkLog 1 "{}"] 1 None [] (PutInFlight 0)
                [Put.mk [mkLog 1 "{}"] "group" "stream" None])
  = Some (mkState [] 1 (Some "next") [] Idle
                  [Put.mk [mkLog 1 "{}"] "group" "stream" None]))
    by reflexivity.
  split; [exact H|].
  apply (flush_end_leaves_buffer_empty _ _ _ _ _ _ H);
    [discriminate | reflexivity].
Defined.

(** ** The start of a flush *)

(** X2: when the throttle releases a flush, an empty buffer sends nothing and
    ends the flush at once; a non-empty buffer is sent whole, as one command
    that holds the buffer as [orderLogs] leaves it, a permutation of the
    buffer, and carries the group, the stream and the token held at that
    moment; the buffer is left in that order while the send is in flight. *)
Theorem flush_start_sends_whole_buffer
        (interval : Z) (g s : string) (depth : nat) (st : State) :
  loop st = FlushQueued depth ->
  exists st',
    step interval g s FlushStart st = Some st' /\
    sequenceToken st' = sequenceToken st /\
    immediates st' = immediates st /\
    ((bufferedLogs st = [] /\ sent st' = sent st /\ loop st' = Idle /\
      bufferedLogs st' = []) \/
     (bufferedLogs st <> [] /\
      exists logEvents,
        sent st' = sent st ++ [Put.mk logEvents g s (sequenceToken st)] /\
        logEvents = bufferedLogs (orderLogs st) /\
        Permutation logEvents (bufferedLogs st) /\
        bufferedLogs st' = logEvents /\
        loop st' = PutInFlight depth)).
Proof.
  intros Hloop. unfold step. rewrite Hloop.
  exists (flush_start g s depth st). split; [reflexivity|].
  pose proof (Array_sort_perm (bufferedLogs st)) as Hperm.
  unfold flush_start, putEventLogs_command, orderLogs, getLogs. simpl.
  fold by_timestamp.
  destruct (Array_sort by_timestamp (bufferedLogs st)) as [|x l] eqn:E; simpl.
  - split; [reflexivity|]. split; [reflexivity|]. left.
    apply Permutation_nil in Hperm. now rewrite Hperm.
  - split; [reflexivity|]. split; [reflexivity|]. right. split.
    + intros Hempty. rewrite Hempty in Hperm.
      apply Permutation_sym, Permutation_nil in Hperm. discriminate Hperm.
    + exists (x :: l). repeat split; assumption.
Qed.

Lemma flush_start_sends_whole_buffer_witness :
  exists st',
    step 1000 "group" "stream" FlushStart
         (mkState [mkLog 9 "b"; mkLog 3 "a"] 9 (Some "tok") [] (FlushQueued 0) [])
    = Some st' /\
    sent st' = [Put.mk [mkLog 3 "a"; mkLog 9 "b"] "group" "stream" (Some "tok")].
Proof.
  destruct (flush_start_sends_whole_buffer 1000 "group" "stream" 0
              (mkState [mkLog 9 "b"; mkLog 3 "a"] 9 (Some "tok") []
                       (FlushQueued 0) []) eq_refl)
    as (st' & Hstep & _).
  exists st'. split; [exact Hstep|].
  vm_compute in Hstep. injection Hstep as <-. reflexivity.
Defined.

(** ** [putEventLogs], all cases *)

(** X3: [putEventLogs] never touches the buffer; on an empty batch it sends
    nothing and changes nothing; on a non-empty batch it sends exactly one
    command, carrying the token held before, and afterwards holds the token
    the answer dictates.  It throws exactly when a non-empty batch is
    rejected with an error that is not a token conflict, and it throws that
    error. *)
Theorem putEventLogs_cases
        (g s : string) (logEvents : list LogEvent) (r : SendResult)
        (st : State) :
  bufferedLogs (snd (putEventLogs g s logEvents r st)) = bufferedLogs st /\
  (logEvents = [] -> putEventLogs g s logEvents r st = (Returned, st)) /\
  (logEvents <> [] ->
   sent (snd (putEventLogs g s logEvents r st))
   = sent st ++ [Put.mk logEvents g s (sequenceToken st)] /\
   sequenceToken (snd (putEventLogs g s logEvents r st))
   = token_after r (sequenceToken st)) /\
  (forall e,
      fst (putEventLogs g s logEvents r st) = Thrown e <->
      logEvents <> [] /\ r = Rejected e /\
      isInvalidSequenceTokenException e = false).
Proof.
  unfold putEventLogs, putEventLogs_command, putEventLogs_settle, token_after.
  destruct logEvents as [|x l];
    [|destruct r as [next|error];
      [|destruct (isInvalidSequenceTokenException error) eqn:E]];
    simpl;
    (split; [reflexivity|]);
    (split; [intros Hl; try reflexivity; discriminate Hl|]);
    (split; [intros Hl; try (now destruct Hl); split; reflexivity|]);
    intros e; split.
  - intros Hc. discriminate Hc.
  - intros (Hne & _). now destruct Hne.
  - intros Hc. discriminate Hc.
  - intros (_ & Hr & _). discriminate Hr.
  - intros Hc. discriminate Hc.
  - intros (_ & Hr & Hi). injection Hr as <-. congruence.
  - intros Hc. injection Hc as <-.
    split; [discriminate|]. split; [reflexivity | exact E].
  - intros (_ & Hr & _). injection Hr as <-. reflexivity.
Qed.

(** ** The token from one send to the next *)

Lemma step_settle_token (interval : Z) (g s : string) (r : SendResult)
      (now : Z) (st st' : State) :
  step interval g s (Settle r now) st = Some st' ->
  sent st' = sent st /\
  sequenceToken st' = token_after r (sequenceToken st).
Proof.
  unfold step. destruct (loop st); try discriminate.
  intros H. injection H as <-.
  unfold flush_settle, putEventLogs_settle, token_after.
  destruct r as [next|error]; [split; reflexivity|].
  destruct (isInvalidSequenceTokenException error); [split; reflexivity|].
  unfold addErrorLog.
  destruct (addLog_effect interval now (errorRecord now (flushingError error)) st)
    as (_ & Hs & Ht & _).
  destruct (addLog interval now _ st) as [[|] st2]; simpl in *; now split.
Qed.

Lemma step_other_token (interval : Z) (g s : string) (ev : Event)
      (st st' : State) :
  step interval g s ev st = Some st' ->
  is_settle ev = false ->
  sequenceToken st' = sequenceToken st /\
  exists new,
    sent st' = sent st ++ new /\
    Forall (fun c => Put.sequenceToken c = sequenceToken st) new.
Proof.
  intros Hstep Hev. destruct ev as [now obj|now| |r now]; [| | |discriminate].
  - unfold step in Hstep. destruct (loop st); try discriminate.
    destruct (addLog_effect interval now obj st) as (_ & Hs & Ht & _).
    destruct (addLog interval now obj st) as [[|] st1]; simpl in *;
      injection Hstep as <-; simpl; (split; [exact Ht|]);
      exists []; rewrite app_nil_r; (split; [exact Hs | constructor]).
  - rewrite step_Immediate in Hstep.
    destruct (immediates st) as [|log rest]; [discriminate|].
    injection Hstep as <-.
    destruct (addLog_effect interval now log (set_immediates rest st))
      as (_ & Hs & Ht & _). simpl in *.
    split; [exact Ht|]. exists []. rewrite app_nil_r.
    split; [exact Hs | constructor].
  - unfold step in Hstep. destruct (loop st); try discriminate.
    injection Hstep as <-. unfold flush_start, putEventLogs_command.
    destruct (getLogs (orderLogs st)) as [|x l]; simpl.
    + split; [reflexivity|]. exists []. rewrite app_nil_r.
      split; [reflexivity | constructor].
    + split; [reflexivity|]. eexists. split; [reflexivity|].
      constructor; [reflexivity | constructor].
Qed.

Lemma run_other_token (interval : Z) (g s : string) (evs : list Event)
      (st st' : State) :
  Forall (fun ev => is_settle ev = false) evs ->
  run interval g s evs st = Some st' ->
  sequenceToken st' = sequenceToken st /\
  exists new,
    sent st' = sent st ++ new /\
    Forall (fun c => Put.sequenceToken c = sequenceToken st) new.
Proof.
  revert st. induction evs as [|ev evs IH]; intros st Hall Hrun; simpl in Hrun.
  - injection Hrun as <-. split; [reflexivity|]. exists [].
    rewrite app_nil_r. split; [reflexivity | constructor].
  - inversion Hall as [|? ? Hev Hrest]; subst.
    destruct (step interval g s ev st) as [st1|] eqn:E; [|discriminate].
    destruct (step_other_token _ _ _ _ _ _ E Hev) as (Ht1 & new1 & Hs1 & Hn1).
    destruct (IH st1 Hrest Hrun) as (Ht & new & Hs & Hn).
    split; [congruence|]. exists (new1 ++ new). split.
    + rewrite Hs, Hs1, app_assoc. reflexivity.
    + apply Forall_app. split; [exact Hn1|]. now rewrite <- Ht1.
Qed.

(** X4: from the moment a send settles until the next one settles, the
    transport holds the token that answer dictates (the next token of a
    success, the expected token of a token conflict, the old token after any
    other failure), and every command it sends in between carries it,
    whatever records arrive and whatever retries run meanwhile. *)
Theorem commands_carry_last_settled_token
        (interval : Z) (g s : string) (r : SendResult) (now : Z)
        (evs : list Event) (st st1 st2 : State) :
  step interval g s (Settle r now) st = Some st1 ->
  Forall (fun ev => is_settle ev = false) evs ->
  run interval g s evs st1 = Some st2 ->
  sequenceToken st2 = token_after r (sequenceToken st) /\
  exists new,
    sent st2 = sent st ++ new /\
    Forall (fun c => Put.sequenceToken c = token_after r (sequenceToken st)) new.
Proof.
  intros Hsettle Hall Hrun.
  destruct (step_settle_token _ _ _ _ _ _ _ Hsettle) as (Hs1 & Ht1).
  destruct (run_other_token _ _ _ _ _ _ Hall Hrun) as (Ht & new & Hs & Hn).
  split; [congruence|]. exists new. split; [congruence|].
  now rewrite <- Ht1.
Qed.

Lemma commands_carry_last_settled_token_witness :
  exists st2,
    run 1000 "group" "stream" [Produce 5000 (mkLog 5000 "{}"); FlushStart]
        (mkState [] 1 (Some "next") [] Idle
                 [Put.mk [mkLog 1 "{}"] "group" "stream" None]) = Some st2 /\
    sequenceToken st2 = Some "next" /\
    exists new,
      sent st2 = [Put.mk [mkLog 1 "{}"] "group" "stream" None] ++ new /\
      Forall (fun c => Put.sequenceToken c = Some "next") new.
Proof.
  assert (Hsettle :
    step 1000 "group" "stream" (Settle (Resolved (Some "next")) 9)
         (mkState [mkLog 1 "{}"] 1 None [] (PutInFlight 0)
                  [Put.mk [mkLog 1 "{}"] "group" "stream" None])
    = Some (mkState [] 1 (Some "next") [] Idle
                    [Put.mk [mkLog 1 "{}"] "group" "stream" None]))
    by reflexivity.
  assert (Hrun :
    run 1000 "group" "stream" [Produce 5000 (mkLog 5000 "{}"); FlushStart]
        (mkState [] 1 (Some "next") [] Idle
                 [Put.mk [mkLog 1 "{}"] "group" "stream" None])
    = Some (mkState [mkLog 5000 "{}"] 5000 (Some "next") [] (PutInFlight 0)
              [Put.mk [mkLog 1 "{}"] "group" "stream" None;
               Put.mk [mkLog 5000 "{}"] "group" "stream" (Some "next")]))
    by reflexivity.
  assert (Hall : Forall (fun ev => is_settle ev = false)
                        [Produce 5000 (mkLog 5000 "{}"); FlushStart])
    by (repeat constructor).
  eexists. split; [exact Hrun|].
  exact (commands_carry_last_settled_token _ _ _ _ _ _ _ _ _ Hsettle Hall Hrun).
Defined.

(** ** Where sent records come from *)

Lemma addLog_all_records (P : LogEvent -> Prop) (interval now : Z)
      (log : LogEvent) (st : State) :
  P log -> all_records P st ->
  all_records P (snd (addLog interval now log st)).
Proof.
  intros Hlog (Hbuf & Himm & Hsent).
  destruct (addLog_effect interval now log st) as (_ & Hs & _ & Hcases).
  unfold all_records. rewrite Hs.
  destruct Hcases as [(Hb & Hi)|[(Hb & Hi & _)|(Hb & Hi & _)]];
    rewrite Hb, Hi; repeat split; try assumption;
    apply Forall_app; split; try assumption; repeat constructor; assumption.
Qed.

Lemma step_all_records (P : LogEvent -> Prop) (interval : Z) (g s : string)
      (ev : Event) (st st' : State) :
  (forall now e, P (errorRecord now (flushingError e))) ->
  Forall P (produced [ev]) ->
  all_records P st ->
  step interval g s ev st = Some st' ->
  all_records P st'.
Proof.
  intros Herr Hev Hall Hstep. destruct ev as [now obj|now| |r now].
  - unfold step in Hstep. destruct (loop st); try discriminate.
    simpl in Hev. inversion Hev as [|? ? Hobj _]; subst.
    pose proof (addLog_all_records P interval now obj st Hobj Hall) as H.
    destruct (addLog interval now obj st) as [[|] st1]; simpl in H;
      injection Hstep as <-; exact H.
  - rewrite step_Immediate in Hstep.
    destruct (immediates st) as [|log rest] eqn:E; [discriminate|].
    injection Hstep as <-. destruct Hall as (Hbuf & Himm & Hsent).
    rewrite E in Himm. inversion Himm as [|? ? Hlog Hrest]; subst.
    apply addLog_all_records; [exact Hlog|].
    unfold all_records; simpl. repeat split; assumption.
  - unfold step in Hstep. destruct (loop st); try discriminate.
    injection Hstep as <-. destruct Hall as (Hbuf & Himm & Hsent).
    assert (Hsorted : Forall P (Array_sort by_timestamp (bufferedLogs st))).
    { eapply Permutation_Forall; [|exact Hbuf].
      apply Permutation_sym, Array_sort_perm. }
    unfold flush_start, putEventLogs_command, orderLogs, getLogs; simpl.
    fold by_timestamp.
    destruct (Array_sort by_timestamp (bufferedLogs st)) as [|x l];
      unfold all_records; simpl; repeat split; try assumption;
      try constructor.
    apply Forall_app. split; [exact Hsent|].
    constructor; [exact Hsorted | constructor].
  - unfold step in Hstep. destruct (loop st); try discriminate.
    injection Hstep as <-. destruct Hall as (Hbuf & Himm & Hsent).
    unfold flush_settle, putEventLogs_settle.
    destruct r as [next|error];
      [unfold all_records; simpl; repeat split; try assumption; constructor|].
    destruct (isInvalidSequenceTokenException error);
      [unfold all_records; simpl; repeat split; try assumption; constructor|].
    unfold addErrorLog.
    pose proof (addLog_all_records P interval now
                  (errorRecord now (flushingError error)) st
                  (Herr now error)
                  (conj Hbuf (conj Himm Hsent))) as H.
    destruct (addLog interval now _ st) as [[|] st2]; simpl in H.
    + exact H.
    + destruct H as (_ & Hi & Hs). unfold all_records; simpl.
      repeat split; try assumption; constructor.
Qed.

Lemma run_all_records (P : LogEvent -> Prop) (interval : Z) (g s : string)
      (evs : list Event) (st st' : State) :
  (forall now e, P (errorRecord now (flushingError e))) ->
  Forall P (produced evs) ->
  all_records P st ->
  run interval g s evs st = Some st' ->
  all_records P st'.
Proof.
  intros Herr. revert st.
  induction evs as [|ev evs IH]; intros st Hev Hall Hrun; simpl in Hrun.
  - now injection Hrun as <-.
  - destruct (step interval g s ev st) as [st1|] eqn:E; [|discriminate].
    change (ev :: evs) with ([ev] ++ evs) in Hev. unfold produced in Hev.
    rewrite flat_map_app in Hev. apply Forall_app in Hev.
    destruct Hev as (Hev1 & Hev2).
    apply (IH st1 Hev2); [|exact Hrun].
    eapply step_all_records; eassumption.
Qed.

Lemma initialize_all_records (P : LogEvent -> Prop) (interval : Z)
      (g s : string) (t0 now : Z) (a : BootAnswers) :
  (forall now e, P (errorRecord now (initializationError e))) ->
  all_records P (snd (initialize interval g s t0 now a)).
Proof.
  intros Herr. unfold initialize.
  destruct (bootstrap_state g s a (init t0 None)) as (token & Hst & _).
  destruct (bootstrap g s a (init t0 None)) as [[cmds c] st].
  cbn [snd] in Hst. subst st.
  assert (Hinit : all_records P (set_sequenceToken token (init t0 None)))
    by (unfold all_records; simpl; repeat split; constructor).
  destruct c as [|e]; cbv beta iota; [exact Hinit|].
  unfold addErrorLog.
  pose proof (addLog_all_records P interval now
                (errorRecord now (initializationError e)) _
                (Herr now e) Hinit) as H.
  destruct (addLog interval now _ _) as [[|] st']; cbn [snd fst] in *;
    exact H.
Qed.

(** X5: however the bootstrap went, every record the transport passes to
    [client.send] is a record the source yielded, an error record the
    transport built for a failed flush, or the error record it built for a
    failed bootstrap; nothing else is ever sent. *)
Theorem sent_records_were_produced_or_built
        (interval : Z) (g s : string) (t0 now : Z) (a : BootAnswers)
        (evs : list Event) (st : State) (cmd : Put.Command) (r : LogEvent) :
  run interval g s evs (snd (initialize interval g s t0 now a)) = Some st ->
  In cmd (sent st) -> In r (Put.logEvents cmd) ->
  In r (produced evs) \/ is_flush_error_record r \/
  is_initialization_error_record r.
Proof.
  intros Hrun Hcmd Hr.
  assert (Hall : all_records
                   (fun r => In r (produced evs) \/ is_flush_error_record r \/
                             is_initialization_error_record r) st).
  { apply (run_all_records _ interval g s evs
             (snd (initialize interval g s t0 now a))).
    - intros now' e. right. left. now exists now', e.
    - apply Forall_forall. intros x Hx. now left.
    - apply initialize_all_records. intros now' e. right. right.
      now exists now', e.
    - exact Hrun. }
  destruct Hall as (_ & _ & Hsent).
  rewrite Forall_forall in Hsent. specialize (Hsent cmd Hcmd).
  rewrite Forall_forall in Hsent. exact (Hsent r Hr).
Qed.

Lemma sent_records_were_produced_or_built_witness :
  run 1000 "group" "stream" [FlushStart]
      (snd (initialize 1000 "group" "stream" 0 5000
              (mkAnswers (CreateRejected transportError) Created
                         (Described None))))
  = Some (mkState [errorRecord 5000 (initializationError transportError)]
                  5000 None [] (PutInFlight 0)
                  [Put.mk [errorRecord 5000 (initializationError transportError)]
                          "group" "stream" None]) /\
  (In (errorRecord 5000 (initializationError transportError))
      (produced [FlushStart]) \/
   is_flush_error_record
     (errorRecord 5000 (initializationError transportError)) \/
   is_initialization_error_record
     (errorRecord 5000 (initializationError transportError))).
Proof.
  assert (Hrun :
    run 1000 "group" "stream" [FlushStart]
        (snd (initialize 1000 "group" "stream" 0 5000
                (mkAnswers (CreateRejected transportError) Created
                           (Described None))))
    = Some (mkState [errorRecord 5000 (initializationError transportError)]
                    5000 None [] (PutInFlight 0)
                    [Put.mk [errorRecord 5000 (initializationError transportError)]
                            "group" "stream" None]))
    by (vm_compute; reflexivity).
  split; [exact Hrun|].
  apply (sent_records_were_produced_or_built _ _ _ _ _ _ _ _
           (Put.mk [errorRecord 5000 (initializationError transportError)]
                   "group" "stream" None) _ Hrun);
    simpl; now left.
Defined.

(** ** Ordering twice *)

(** X6: on a buffer whose timestamps are all numbers, or all convert to NaN,
    the ordering of [orderLogs] is idempotent and keeps the number of
    records: ordering a buffer that a flush has already ordered, as a flush
    called by [addErrorLog] does, leaves it exactly as it is. *)
Theorem orderLogs_idempotent (logs : list (LogRecord jsval)) :
  Forall numeric_timestamp logs \/ Forall NaN_timestamp logs ->
  Untyped.orderLogs (Untyped.orderLogs logs) = Untyped.orderLogs logs /\
  List.length (Untyped.orderLogs logs) = List.length logs.
Proof.
  intros [Hnum|Hnan].
  - destruct (orderLogs_numeric logs Hnum) as (Hp & _ & _ & Hid).
    split; [exact Hid | now apply Permutation_length].
  - rewrite !(orderLogs_NaN logs Hnan). split; reflexivity.
Qed.

Lemma orderLogs_idempotent_witness :
  Untyped.orderLogs
    (Untyped.orderLogs [mkLog (JNumber 9) "b"; mkLog (JNumber 3) "a"])
  = Untyped.orderLogs [mkLog (JNumber 9) "b"; mkLog (JNumber 3) "a"] /\
  Untyped.orderLogs [mkLog (JNumber 9) "b"; mkLog (JNumber 3) "a"]
  = [mkLog (JNumber 3) "a"; mkLog (JNumber 9) "b"].
Proof.
  split; [|reflexivity].
  apply (orderLogs_idempotent [mkLog (JNumber 9) "b"; mkLog (JNumber 3) "a"]).
  left. repeat constructor; eexists; reflexivity.
Defined.

(** ** Arrivals that never trigger a flush *)

Lemma produced_arrivals_length (interval last : Z) (evs : list Event) :
  arrivals_within interval last evs ->
  List.length (produced evs) = List.length evs.
Proof.
  revert last. induction evs as [|[now obj|now| |r now] evs IH];
    intros last H; simpl in *; try contradiction.
  - reflexivity.
  - destruct H as (_ & H). now rewrite (IH now H).
Qed.

Lemma run_arrivals (interval : Z) (g s : string) (evs : list Event)
      (buffer : list LogEvent) (last : Z) (token : option string)
      (queue : list LogEvent) (out : list Put.Command) :
  arrivals_within interval last evs ->
  Forall admissible (produced evs) ->
  Z.of_nat (List.length (buffer ++ produced evs)) < MAX_BUFFER_LENGTH ->
  currentSize (buffer ++ produced evs) < MAX_BUFFER_SIZE ->
  run interval g s evs (mkState buffer last token queue Idle out)
  = Some (mkState (buffer ++ produced evs) (last_arrival last evs) token
                  queue Idle out).
Proof.
  revert buffer last.
  induction evs as [|[now obj|now| |r now] evs IH];
    intros buffer last Harr Hadm Hcount Hsize; simpl in Harr;
    try contradiction.
  - simpl. now rewrite app_nil_r.
  - destruct Harr as (Hgap & Harr).
    change (produced (Produce now obj :: evs)) with (obj :: produced evs) in *.
    inversion Hadm as [|? ? Hobj Hrest]; subst.
    set (st := mkState buffer last token queue Idle out).
    assert (Hexceeds : logEventExceedsSize obj = false).
    { unfold logEventExceedsSize. rewrite Z.geb_leb. apply Z.leb_gt.
      exact Hobj. }
    assert (Hfull : reachedBufferSizeLimit obj st = false).
    { unfold reachedBufferSizeLimit, st; simpl bufferedLogs.
      rewrite Z.geb_leb. apply Z.leb_gt.
      rewrite currentSize_app, currentSize_cons in Hsize.
      pose proof (currentSize_nonneg (produced evs)). lia. }
    assert (Hlimit : reachedNumberOfLogsLimit (push obj st) = false).
    { unfold reachedNumberOfLogsLimit, push, st; simpl bufferedLogs.
      apply Z.eqb_neq. rewrite !length_app in *. simpl List.length in *. lia. }
    assert (Htime : (now - last >? interval) = false).
    { rewrite Z.gtb_ltb. apply Z.ltb_ge. lia. }
    cbn [run]. unfold step. change (loop st) with Idle. cbv iota.
    unfold addLog. rewrite Hexceeds, Hfull. cbn [negb]. cbv iota zeta.
    rewrite Hlimit. unfold shouldDoAPeriodicFlush.
    change (lastFlush (push obj st)) with last. rewrite Htime.
    unfold set_lastFlush, push, set_bufferedLogs, st; simpl.
    rewrite (IH (buffer ++ [obj]) now Harr Hrest).
    + now rewrite <- app_assoc.
    + now rewrite <- app_assoc.
    + now rewrite <- app_assoc.
Qed.

(** X7: the transport has no timer of its own: as long as each record
    arrives at most [interval] milliseconds after the one before (the first
    at most [interval] after the start), fewer than 10,000 records have
    arrived and their size estimate is under the byte ceiling, nothing is
    sent and no flush is asked for; the records wait in the buffer in arrival
    order. *)
Theorem close_arrivals_are_only_buffered
        (interval : Z) (g s : string) (evs : list Event) (t0 : Z)
        (token : option string) :
  arrivals_within interval t0 evs ->
  Forall admissible (produced evs) ->
  Z.of_nat (List.length evs) < 10000 ->
  currentSize (produced evs) < 1048576 ->
  run interval g s evs (init t0 token)
  = Some (mkState (produced evs) (last_arrival t0 evs) token [] Idle []).
Proof.
  intros Harr Hadm Hcount Hsize.
  rewrite <- (produced_arrivals_length _ _ _ Harr) in Hcount.
  exact (run_arrivals interval g s evs [] t0 token [] [] Harr Hadm Hcount Hsize).
Qed.

Lemma close_arrivals_are_only_buffered_witness :
  run 1000 "group" "stream"
      [Produce 900 (mkLog 900 "a"); Produce 1900 (mkLog 1900 "b")]
      (init 0 None)
  = Some (mkState [mkLog 900 "a"; mkLog 1900 "b"] 1900 None [] Idle []).
Proof.
  apply (close_arrivals_are_only_buffered 1000 "group" "stream"
           [Produce 900 (mkLog 900 "a"); Produce 1900 (mkLog 1900 "b")]
           0 None).
  - simpl. lia.
  - repeat constructor.
  - simpl. lia.
  - reflexivity.
Defined.

(** ** A whole flush cycle *)

Lemma flush_start_nonempty (g s : string) (depth : nat) (st : State) :
  bufferedLogs st <> [] ->
  flush_start g s depth st
  = set_loop (PutInFlight depth)
      (set_sent (sent st ++ [Put.mk (Array_sort by_timestamp (bufferedLogs st))
                                    g s (sequenceToken st)])
                (orderLogs st)).
Proof.
  intros Hne. pose proof (Array_sort_perm (bufferedLogs st)) as Hperm.
  unfold flush_start, putEventLogs_command, orderLogs, getLogs. simpl.
  fold by_timestamp.
  destruct (Array_sort by_timestamp (bufferedLogs st)) as [|x l].
  - apply Permutation_nil in Hperm. now destruct Hne.
  - reflexivity.
Qed.

Lemma app_one_not_nil (l : list LogEvent) (x : LogEvent) : l ++ [x] <> [].
Proof. destruct l; discriminate. Qed.

(** X8: when the source yields a record that is pushed and triggers a flush,
    and the service accepts the batch, the transport sends exactly one
    command; it holds every record that was buffered and the new one, under
    the token held before; afterwards the
    buffer is empty, the token is the one the service returned and the loop
    takes the next record. *)
Theorem triggered_flush_delivers_buffer
        (interval : Z) (g s : string) (now now' : Z) (obj : LogEvent)
        (next : option string) (st : State) :
  loop st = Idle ->
  logEventExceedsSize obj = false ->
  reachedBufferSizeLimit obj st = false ->
  fst (addLog interval now obj st) = true ->
  exists logEvents st',
    run interval g s [Produce now obj; FlushStart; Settle (Resolved next) now']
        st = Some st' /\
    sent st' = sent st ++ [Put.mk logEvents g s (sequenceToken st)] /\
    Permutation logEvents (bufferedLogs st ++ [obj]) /\
    bufferedLogs st' = [] /\ immediates st' = immediates st /\
    sequenceToken st' = next /\ loop st' = Idle.
Proof.
  intros Hloop Hsize Hfull Htrigger.
  exists (Array_sort by_timestamp (bufferedLogs st ++ [obj])).
  assert (Hfacts :
    exists st1, addLog interval now obj st = (true, st1) /\
                bufferedLogs st1 = bufferedLogs st ++ [obj] /\
                immediates st1 = immediates st /\ sent st1 = sent st /\
                sequenceToken st1 = sequenceToken st).
  { destruct (addLog_outcomes interval now obj st) as [Hx|? ? ?|? ? ?|? Hx];
      simpl in Htrigger; try congruence.
    - eexists. split; [reflexivity|]. repeat split.
    - rewrite Htrigger. eexists. split; [reflexivity|]. repeat split. }
  destruct Hfacts as (st1 & Hadd & Hb & Hi & Hs & Ht).
  set (queued := set_loop (FlushQueued 0) st1).
  assert (H1 : step interval g s (Produce now obj) st = Some queued)
    by (unfold step; rewrite Hloop, Hadd; reflexivity).
  assert (H2 : step interval g s FlushStart queued
               = Some (flush_start g s 0 queued)) by reflexivity.
  rewrite flush_start_nonempty in H2
    by (unfold queued; simpl; rewrite Hb; apply app_one_not_nil).
  cbn [run]. rewrite H1, H2. unfold step. simpl loop. cbv iota.
  eexists. split; [reflexivity|]. unfold queued. simpl.
  rewrite Hb, Hi, Hs, Ht. repeat split.
  apply Array_sort_perm.
Qed.

Lemma triggered_flush_delivers_buffer_witness :
  exists logEvents st',
    run 1000 "group" "stream"
        [Produce 2000 (mkLog 1500 "late"); FlushStart;
         Settle (Resolved (Some "t2")) 2300]
        (mkState [mkLog 1700 "early"] 1 (Some "t1") [] Idle []) = Some st' /\
    sent st' = [] ++ [Put.mk logEvents "group" "stream" (Some "t1")] /\
    Permutation logEvents ([mkLog 1700 "early"] ++ [mkLog 1500 "late"]) /\
    bufferedLogs st' = [] /\ immediates st' = [] /\
    sequenceToken st' = Some "t2" /\ loop st' = Idle.
Proof.
  apply (triggered_flush_delivers_buffer 1000 "group" "stream" 2000 2300
           (mkLog 1500 "late") (Some "t2")
           (mkState [mkLog 1700 "early"] 1 (Some "t1") [] Idle []));
    reflexivity.
Defined.

Lemma admissible_not_exceeding (log : LogEvent) :
  admissible log -> logEventExceedsSize log = false.
Proof.
  unfold admissible, logEventExceedsSize. intros H.
  rewrite Z.geb_leb. apply Z.leb_gt. exact H.
Qed.

(** X9: a record that overflows the buffer is not part of the flush it
    triggers: that flush sends the buffer as it was, and once the service
    has answered and the retry has run, the record is the only one in the
    buffer and no retry is left. *)
Theorem overflow_record_waits_for_next_batch
        (interval : Z) (g s : string) (now now1 now2 : Z) (obj : LogEvent)
        (r : SendResult) (st : State) :
  loop st = Idle -> immediates st = [] ->
  logEventExceedsSize obj = false ->
  reachedBufferSizeLimit obj st = true ->
  (forall e, r = Rejected e -> isInvalidSequenceTokenException e = true) ->
  exists logEvents st',
    run interval g s
        [Produce now obj; FlushStart; Settle r now1; Immediate now2] st
    = Some st' /\
    sent st' = sent st ++ [Put.mk logEvents g s (sequenceToken st)] /\
    Permutation logEvents (bufferedLogs st) /\
    bufferedLogs st' = [obj] /\ immediates st' = [] /\
    sequenceToken st' = token_after r (sequenceToken st) /\
    loop st' = Idle.
Proof.
  intros Hloop Hq Hsize Hfull Hr.
  exists (Array_sort by_timestamp (bufferedLogs st)).
  assert (Hne : bufferedLogs st <> []).
  { intros Hempty.
    rewrite (empty_buffer_has_room obj st Hsize Hempty) in Hfull.
    discriminate. }
  assert (Hsettle : forall st0,
    putEventLogs_settle r st0
    = (Returned, set_sequenceToken (token_after r (sequenceToken st0)) st0)).
  { intros st0. unfold putEventLogs_settle, token_after.
    destruct r as [next|e]; [reflexivity|].
    now rewrite (Hr e eq_refl). }
  set (queued := set_loop (FlushQueued 0) (setImmediate obj st)).
  assert (H1 : step interval g s (Produce now obj) st = Some queued).
  { unfold step. rewrite Hloop. unfold addLog. now rewrite Hsize, Hfull. }
  assert (H2 : step interval g s FlushStart queued
               = Some (flush_start g s 0 queued)) by reflexivity.
  rewrite flush_start_nonempty in H2 by exact Hne.
  set (flying := set_loop (PutInFlight 0) _) in H2.
  assert (H3 : step interval g s (Settle r now1) flying
               = Some (flush_finally
                         (set_sequenceToken
                            (token_after r (sequenceToken flying)) flying))).
  { unfold step. change (loop flying) with (PutInFlight 0). cbv iota.
    unfold flush_settle. now rewrite Hsettle. }
  set (cleared := flush_finally _) in H3.
  assert (Hroom : reachedBufferSizeLimit obj (set_immediates [] cleared) = false)
    by (now apply empty_buffer_has_room).
  assert (H4 : exists st',
             step interval g s (Immediate now2) cleared = Some st' /\
             bufferedLogs st' = [obj] /\ immediates st' = [] /\
             sent st' = sent cleared /\
             sequenceToken st' = sequenceToken cleared /\
             loop st' = Idle).
  { rewrite step_Immediate.
    change (immediates cleared) with (immediates st ++ [obj]). rewrite Hq.
    simpl app. eexists. split; [reflexivity|].
    unfold addLog. rewrite Hsize, Hroom. cbn [negb]. cbv iota zeta.
    destruct (reachedNumberOfLogsLimit _); simpl; repeat split. }
  destruct H4 as (st' & H4 & Hb' & Hi' & Hs' & Ht' & Hl').
  exists st'. cbn [run]. rewrite H1, H2, H3, H4.
  split; [reflexivity|]. rewrite Hs', Ht'. unfold cleared, flying, queued. simpl.
  repeat split; try assumption. apply Array_sort_perm.
Qed.

Lemma overflow_record_waits_for_next_batch_witness :
  logEventExceedsSize (largest_record 4) = false /\
  reachedBufferSizeLimit (largest_record 4) three_largest = true /\
  exists logEvents st',
    run 1000 "group" "stream"
        [Produce 4 (largest_record 4); FlushStart;
         Settle (Resolved (Some "t2")) 900; Immediate 901] three_largest
    = Some st' /\
    sent st' = sent three_largest ++
               [Put.mk logEvents "group" "stream" (sequenceToken three_largest)] /\
    Permutation logEvents (bufferedLogs three_largest) /\
    bufferedLogs st' = [largest_record 4] /\ immediates st' = [] /\
    sequenceToken st'
    = token_after (Resolved (Some "t2")) (sequenceToken three_largest) /\
    loop st' = Idle.
Proof.
  assert (H1 : logEventExceedsSize (largest_record 4) = false)
    by (vm_compute; reflexivity).
  assert (H2 : reachedBufferSizeLimit (largest_record 4) three_largest = true)
    by (vm_compute; reflexivity).
  split; [exact H1|]. split; [exact H2|].
  apply (overflow_record_waits_for_next_batch 1000 "group" "stream" 4 900 901
           (largest_record 4) (Resolved (Some "t2")) three_largest
           eq_refl eq_refl H1 H2).
  intros e He. discriminate He.
Defined.

(** ** The retry while the buffer is full *)

Lemma set_immediates_same (q : list LogEvent) (st : State) :
  immediates st = q -> set_immediates q st = st.
Proof. destruct st; simpl. now intros <-. Qed.

Lemma retry_requeued (interval : Z) (g s : string) (now : Z) (log : LogEvent)
      (rest : list LogEvent) (st : State) :
  immediates st = log :: rest ->
  logEventExceedsSize log = false ->
  reachedBufferSizeLimit log st = true ->
  step interval g s (Immediate now) st
  = Some (set_immediates (rest ++ [log]) st).
Proof.
  intros Hq Hsize Hfull. rewrite step_Immediate, Hq. unfold addLog.
  change (reachedBufferSizeLimit log (set_immediates rest st))
    with (reachedBufferSizeLimit log st).
  now rewrite Hsize, Hfull.
Qed.

(** X10: while the buffer has no room for a deferred record, running its
    retry only registers it again, at the back of the queue; with one record
    waiting, any number of retries, at any times, leaves the whole state
    exactly as it is.  The retry makes no progress until a flush clears the
    buffer. *)
Theorem retry_spins_while_buffer_is_full
        (interval : Z) (g s : string) (log : LogEvent) (rest : list LogEvent)
        (st : State) :
  immediates st = log :: rest ->
  logEventExceedsSize log = false ->
  reachedBufferSizeLimit log st = true ->
  (forall now,
      step interval g s (Immediate now) st
      = Some (set_immediates (rest ++ [log]) st)) /\
  (rest = [] ->
   forall nows, run interval g s (map Immediate nows) st = Some st).
Proof.
  intros Hq Hsize Hfull. split.
  - intros now. now apply retry_requeued.
  - intros -> nows. induction nows as [|now nows IH]; cbn [map run].
    + reflexivity.
    + rewrite (retry_requeued interval g s now log [] st Hq Hsize Hfull).
      simpl app. rewrite (set_immediates_same [log] st Hq). exact IH.
Qed.

Lemma retry_spins_while_buffer_is_full_witness :
  logEventExceedsSize (largest_record 4) = false /\
  reachedBufferSizeLimit (largest_record 4) retry_waiting_on_full_buffer = true /\
  run 1000 "group" "stream" (map Immediate [10; 11; 12])
      retry_waiting_on_full_buffer
  = Some retry_waiting_on_full_buffer.
Proof.
  assert (H1 : logEventExceedsSize (largest_record 4) = false)
    by (vm_compute; reflexivity).
  assert (H2 : reachedBufferSizeLimit (largest_record 4)
                 retry_waiting_on_full_buffer = true)
    by (vm_compute; reflexivity).
  split; [exact H1|]. split; [exact H2|].
  exact (proj2 (retry_spins_while_buffer_is_full 1000 "group" "stream"
                  (largest_record 4) [] retry_waiting_on_full_buffer
                  eq_refl H1 H2) eq_refl [10; 11; 12]).
Defined.

(** ** The bootstrap *)

Lemma initialize_Inv (interval : Z) (g s : string) (t0 now : Z)
      (a : BootAnswers) :
  Inv (snd (initialize interval g s t0 now a)).
Proof.
  unfold initialize.
  destruct (bootstrap_state g s a (init t0 None)) as (token & Hst & _).
  destruct (bootstrap g s a (init t0 None)) as [[cmds c] st]. simpl in Hst.
  subst st. destruct c as [|e]; cbv beta iota.
  - apply (Inv_init t0 token).
  - unfold addErrorLog.
    set (record := errorRecord now (initializationError e)).
    set (st := set_sequenceToken token (init t0 None)).
    pose proof (addLog_limits interval now record st
                  (proj1 (Inv_init t0 token))) as Hlim.
    pose proof (addLog_effect interval now record st) as (Hl & _).
    destruct (addLog interval now record st) as [[|] st'];
      cbn [snd fst] in *.
    + split; [exact Hlim | apply not_in_flight; discriminate].
    + split; [exact Hlim | apply not_in_flight; rewrite Hl; discriminate].
Qed.

Lemma currentSize_counts (l : list LogEvent) :
  26 * Z.of_nat (List.length l) <= currentSize l.
Proof.
  induction l as [|x l IH].
  - rewrite currentSize_nil. simpl. lia.
  - rewrite currentSize_cons. pose proof (js_length_nonneg (message x)).
    simpl List.length. lia.
Qed.

(** X11: however the bootstrap went (group, stream and token obtained, or
    any of the three sends failed and the failure was logged), every batch
    the transport later passes to [client.send] holds only records under
    the per-record ceiling, has a size estimate under 1,048,576, and so has
    at most 40,329 records. *)
Theorem batches_within_limits_after_any_bootstrap
        (interval : Z) (g s : string) (t0 now : Z) (a : BootAnswers)
        (evs : list Event) (st : State) (cmd : Put.Command) :
  run interval g s evs (snd (initialize interval g s t0 now a)) = Some st ->
  In cmd (sent st) ->
  Forall admissible (Put.logEvents cmd) /\
  currentSize (Put.logEvents cmd) < 1048576 /\
  Z.of_nat (List.length (Put.logEvents cmd)) <= 40329.
Proof.
  intros Hrun Hcmd.
  apply (run_Inv interval g s evs _ st (initialize_Inv interval g s t0 now a))
    in Hrun.
  destruct Hrun as ((_ & _ & Hsent) & _).
  rewrite Forall_forall in Hsent. destruct (Hsent cmd Hcmd) as (Hall & Hsize).
  unfold MAX_BUFFER_SIZE in Hsize.
  pose proof (currentSize_counts (Put.logEvents cmd)).
  repeat split; [exact Hall | exact Hsize | lia].
Qed.

Lemma batches_within_limits_after_any_bootstrap_witness :
  exists st,
    run 1000 "group" "stream" [FlushStart]
        (snd (initialize 1000 "group" "stream" 0 5000
                (mkAnswers (CreateRejected transportError) Created
                           (Described None)))) = Some st /\
    Forall (fun cmd =>
              Forall admissible (Put.logEvents cmd) /\
              currentSize (Put.logEvents cmd) < 1048576 /\
              Z.of_nat (List.length (Put.logEvents cmd)) <= 40329)
           (sent st) /\
    List.length (sent st) = 1%nat.
Proof.
  destruct (run 1000 "group" "stream" [FlushStart]
              (snd (initialize 1000 "group" "stream" 0 5000
                      (mkAnswers (CreateRejected transportError) Created
                                 (Described None))))) as [st|] eqn:Hrun.
  - exists st. split; [reflexivity|]. split.
    + apply Forall_forall. intros cmd Hcmd.
      exact (batches_within_limits_after_any_bootstrap
               1000 "group" "stream" 0 5000 _ _ st cmd Hrun Hcmd).
    + vm_compute in Hrun. injection Hrun as <-. reflexivity.
  - vm_compute in Hrun. discriminate Hrun.
Defined.

(** X12: when the group and the stream are each created or reported as
    already existing, and the service lists at least one stream for the
    prefix, the bootstrap sends the three commands in order, logs no error
    and leaves the transport idle with an empty buffer, holding the upload
    token of the first stream listed, whatever that stream's name. *)
Theorem bootstrap_adopts_first_stream_token
        (interval : Z) (g s : string) (t0 now : Z) (a : BootAnswers)
        (first : LogStream.t) (others : list LogStream.t) :
  create_accepted (group_answer a) ->
  create_accepted (stream_answer a) ->
  describe_answer a = Described (Some (first :: others)) ->
  initialize interval g s t0 now a
  = ([CreateLogGroupCommand g; CreateLogStreamCommand g s;
      DescribeLogStreamsCommand g s],
     init t0 (LogStream.uploadSequenceToken first)).
Proof.
  intros Hg Hs Hd. unfold initialize, bootstrap.
  rewrite (proj1 (create_accepted_returns _ Hg)).
  rewrite (proj2 (create_accepted_returns _ Hs)).
  rewrite Hd. reflexivity.
Qed.

Lemma bootstrap_adopts_first_stream_token_witness :
  initialize 1000 "group" "app" 0 700
    (mkAnswers
       (CreateRejected (JsError.mk true "ResourceAlreadyExistsException"
                                   (Some "exists") None))
       Created
       (Described (Some [LogStream.mk "app-2" (Some "tokA");
                         LogStream.mk "app" (Some "tokB")])))
  = ([CreateLogGroupCommand "group"; CreateLogStreamCommand "group" "app";
      DescribeLogStreamsCommand "group" "app"],
     init 0 (Some "tokA")).
Proof.
  apply (bootstrap_adopts_first_stream_token 1000 "group" "app" 0 700 _
           (LogStream.mk "app-2" (Some "tokA"))
           [LogStream.mk "app" (Some "tokB")]).
  - right. eexists. split; [reflexivity|]. split; reflexivity.
  - left. reflexivity.
  - reflexivity.
Defined.

Lemma failed_bootstrap_state
      (interval : Z) (g s : string) (t0 now : Z) (a : BootAnswers)
      (cmds : list BootCommand) (e : JsError.t) (st0 : State) :
  bootstrap g s a (init t0 None) = (cmds, Thrown e, st0) ->
  logEventExceedsSize (errorRecord now (initializationError e)) = false ->
  st0 = init t0 None /\
  initialize interval g s t0 now a
  = (cmds,
     mkState [errorRecord now (initializationError e)] now None []
             (if now - t0 >? interval then FlushQueued 0 else Idle) []).
Proof.
  intros Hboot Hsize.
  destruct (bootstrap_state g s a (init t0 None)) as (token & Hst & Htok).
  rewrite Hboot in Hst, Htok. cbn [fst snd] in Hst, Htok.
  rewrite (Htok e eq_refl) in Hst.
  change (set_sequenceToken (sequenceToken (init t0 None)) (init t0 None))
    with (init t0 None) in Hst.
  split; [exact Hst|].
  unfold initialize. rewrite Hboot. subst st0.
  unfold addErrorLog, addLog. rewrite Hsize.
  rewrite (empty_buffer_has_room _ (init t0 None) Hsize eq_refl).
  cbn [negb]. cbv iota zeta.
  change (reachedNumberOfLogsLimit
            (push (errorRecord now (initializationError e)) (init t0 None)))
    with false.
  cbv iota. unfold shouldDoAPeriodicFlush.
  change (lastFlush (push (errorRecord now (initializationError e))
                          (init t0 None))) with t0.
  destruct (now - t0 >? interval); reflexivity.
Qed.

(** X13: a bootstrap that fails does not throw out of the initialization
    and leaves no token: the commands sent so far are kept, and when the
    error record is under the per-record ceiling the transport starts with
    exactly that record in its buffer, [lastFlush] at the time of the
    failure, and a flush queued exactly when more than [interval]
    milliseconds have passed since the closure was created. *)
Theorem failed_bootstrap_is_reported
        (interval : Z) (g s : string) (t0 now : Z) (a : BootAnswers)
        (cmds : list BootCommand) (e : JsError.t) (st0 : State) :
  bootstrap g s a (init t0 None) = (cmds, Thrown e, st0) ->
  logEventExceedsSize (errorRecord now (initializationError e)) = false ->
  st0 = init t0 None /\
  initialize interval g s t0 now a
  = (cmds,
     mkState [errorRecord now (initializationError e)] now None []
             (if now - t0 >? interval then FlushQueued 0 else Idle) []).
Proof.
  apply failed_bootstrap_state.
Qed.

Lemma failed_bootstrap_is_reported_witness :
  initialize 1000 "group" "stream" 0 5000
    (mkAnswers (CreateRejected transportError) Created (Described None))
  = ([CreateLogGroupCommand "group"],
     mkState [errorRecord 5000 (initializationError transportError)] 5000 None
             [] (FlushQueued 0) []).
Proof.
  exact (proj2 (failed_bootstrap_is_reported 1000 "group" "stream" 0 5000
                  (mkAnswers (CreateRejected transportError) Created
                             (Described None))
                  [CreateLogGroupCommand "group"] transportError (init 0 None)
                  eq_refl eq_refl)).
Defined.

(** X14: a rejection of the group or of the stream creation other than
    "already exists" stops the bootstrap there: the later commands are not
    sent, whatever the service would have answered them, and the error
    thrown is the rejection itself. *)
Theorem bootstrap_stops_at_first_rejection
        (g s : string) (a : BootAnswers) (e : JsError.t) (st : State) :
  isResourceAlreadyExistsException e = false ->
  (group_answer a = CreateRejected e ->
   bootstrap g s a st = ([CreateLogGroupCommand g], Thrown e, st)) /\
  (create_accepted (group_answer a) ->
   stream_answer a = CreateRejected e ->
   bootstrap g s a st
   = ([CreateLogGroupCommand g; CreateLogStreamCommand g s], Thrown e, st)).
Proof.
  intros He. unfold bootstrap. split.
  - intros ->. unfold createLogGroup. now rewrite He.
  - intros Hg ->. rewrite (proj1 (create_accepted_returns _ Hg)).
    unfold createLogStream. now rewrite He.
Qed.

Lemma bootstrap_stops_at_first_rejection_witness :
  isResourceAlreadyExistsException transportError = false /\
  bootstrap "group" "stream"
    (mkAnswers (CreateRejected transportError) Created
               (Described (Some [LogStream.mk "stream" (Some "tok")])))
    (init 0 None)
  = ([CreateLogGroupCommand "group"], Thrown transportError, init 0 None).
Proof.
  split; [reflexivity|].
  exact (proj1 (bootstrap_stops_at_first_rejection "group" "stream"
                  (mkAnswers (CreateRejected transportError) Created
                     (Described (Some [LogStream.mk "stream" (Some "tok")])))
                  transportError (init 0 None) eq_refl) eq_refl).
Defined.

(** X15: with the group and the stream in place, an empty list of streams
    makes the bootstrap fail with the error "LogStream not found.", which is
    logged like any other failure, while an answer without a list is taken
    as success: no error is logged and the transport starts without a
    token. *)
Theorem stream_list_empty_or_absent
        (interval : Z) (g s : string) (t0 now : Z) (a : BootAnswers) :
  create_accepted (group_answer a) ->
  create_accepted (stream_answer a) ->
  (describe_answer a = Described (Some []) ->
   initialize interval g s t0 now a
   = ([CreateLogGroupCommand g; CreateLogStreamCommand g s;
       DescribeLogStreamsCommand g s],
      mkState [errorRecord now (initializationError logStreamNotFound)]
              now None []
              (if now - t0 >? interval then FlushQueued 0 else Idle) [])) /\
  (describe_answer a = Described None ->
   initialize interval g s t0 now a
   = ([CreateLogGroupCommand g; CreateLogStreamCommand g s;
       DescribeLogStreamsCommand g s],
      init t0 None)).
Proof.
  intros Hg Hs.
  assert (Hboot : forall d, describe_answer a = d ->
    bootstrap g s a (init t0 None)
    = (let (c, st') := nextToken d (init t0 None) in
       ([CreateLogGroupCommand g; CreateLogStreamCommand g s;
         DescribeLogStreamsCommand g s], c, st'))).
  { intros d <-. unfold bootstrap.
    rewrite (proj1 (create_accepted_returns _ Hg)).
    now rewrite (proj2 (create_accepted_returns _ Hs)). }
  split; intros Hd.
  - apply (failed_bootstrap_state interval g s t0 now a _ logStreamNotFound
             (init t0 None)).
    + rewrite (Hboot _ Hd). reflexivity.
    + reflexivity.
  - unfold initialize. rewrite (Hboot _ Hd). reflexivity.
Qed.

Lemma stream_list_empty_or_absent_witness :
  initialize 1000 "group" "stream" 0 400
    (mkAnswers Created Created (Described (Some [])))
  = ([CreateLogGroupCommand "group"; CreateLogStreamCommand "group" "stream";
      DescribeLogStreamsCommand "group" "stream"],
     mkState [errorRecord 400 (initializationError logStreamNotFound)]
             400 None [] Idle []) /\
  initialize 1000 "group" "stream" 0 400
    (mkAnswers Created Created (Described None))
  = ([CreateLogGroupCommand "group"; CreateLogStreamCommand "group" "stream";
      DescribeLogStreamsCommand "group" "stream"],
     init 0 None).
Proof.
  split.
  - exact (proj1 (stream_list_empty_or_absent 1000 "group" "stream" 0 400
                    (mkAnswers Created Created (Described (Some [])))
                    (or_introl eq_refl) (or_introl eq_refl)) eq_refl).
  - exact (proj2 (stream_list_empty_or_absent 1000 "group" "stream" 0 400
                    (mkAnswers Created Created (Described None))
                    (or_introl eq_refl) (or_introl eq_refl)) eq_refl).
Defined.

(** ** The count ceiling when nothing fails *)

Lemma step_count_kept (interval : Z) (g s : string) (ev : Event)
      (st st' : State) :
  is_smooth ev = true ->
  count_kept st ->
  step interval g s ev st = Some st' ->
  count_kept st'.
Proof.
  intros Hev (Hbuf & Hsent) Hstep. unfold count_kept in *.
  destruct ev as [now obj|now| |r now]; [| discriminate | |].
  - unfold step in Hstep. destruct (loop st) eqn:Hloop; try discriminate.
    destruct (addLog_outcomes interval now obj st)
      as [Hx|Hx Hy Hz|Hx Hy Hz|Hx Hy]; injection Hstep as <-.
    + simpl. rewrite Hloop. split; assumption.
    + simpl. split; [|exact Hsent].
      unfold reachedNumberOfLogsLimit in Hz. apply Z.eqb_eq in Hz.
      simpl in Hz. lia.
    + unfold reachedNumberOfLogsLimit in Hz. apply Z.eqb_neq in Hz.
      simpl in Hz. rewrite length_app in *. simpl List.length in *.
      destruct (now - lastFlush st >? interval); simpl;
        rewrite ?Hloop, length_app; simpl List.length;
        (split; [lia | exact Hsent]).
    + simpl. split; [lia | exact Hsent].
  - unfold step in Hstep. destruct (loop st) eqn:Hloop; try discriminate.
    injection Hstep as <-.
    pose proof (Permutation_length (Array_sort_perm (bufferedLogs st))) as Hlen.
    unfold flush_start, putEventLogs_command, orderLogs, getLogs. simpl.
    fold by_timestamp.
    destruct (Array_sort by_timestamp (bufferedLogs st)) as [|x l] eqn:E;
      simpl.
    + split; [unfold MAX_BUFFER_LENGTH; lia | exact Hsent].
    + split; [simpl in Hlen; lia|].
      apply Forall_app. split; [exact Hsent|].
      constructor; [simpl in *; lia | constructor].
  - unfold step in Hstep. destruct (loop st) eqn:Hloop; try discriminate.
    injection Hstep as <-. unfold flush_settle, putEventLogs_settle.
    destruct r as [next|e].
    + simpl. split; [unfold MAX_BUFFER_LENGTH; lia | exact Hsent].
    + simpl in Hev. rewrite Hev. simpl.
      split; [unfold MAX_BUFFER_LENGTH; lia | exact Hsent].
Qed.

(** X16: as long as no send is rejected with an error other than a token
    conflict and no deferred retry runs, the count ceiling holds: every
    batch passed to [client.send] has at most 10,000 records. *)
Theorem count_ceiling_without_failure_or_retry
        (interval : Z) (g s : string) (evs : list Event) (t0 : Z)
        (token : option string) (st : State) (cmd : Put.Command) :
  Forall (fun ev => is_smooth ev = true) evs ->
  run interval g s evs (init t0 token) = Some st ->
  In cmd (sent st) ->
  Z.of_nat (List.length (Put.logEvents cmd)) <= 10000.
Proof.
  intros Hall Hrun Hcmd.
  assert (Hkept : count_kept st).
  { assert (Hinit : count_kept (init t0 token)).
    { unfold count_kept, init; simpl. split; [reflexivity | constructor]. }
    revert Hinit Hrun. generalize (init t0 token).
    induction evs as [|ev evs IH]; intros st0 Hst0 Hrun; simpl in Hrun.
    - now injection Hrun as <-.
    - inversion Hall as [|? ? Hev Hrest]; subst.
      destruct (step interval g s ev st0) as [st1|] eqn:E; [|discriminate].
      apply (IH Hrest st1); [|exact Hrun].
      exact (step_count_kept _ _ _ _ _ _ Hev Hst0 E). }
  destruct Hkept as (_ & Hsent). rewrite Forall_forall in Hsent.
  exact (Hsent cmd Hcmd).
Qed.

Lemma count_ceiling_without_failure_or_retry_witness :
  run 1000 "group" "stream" [Produce 2000 (mkLog 2000 "{}"); FlushStart]
      (init 0 None)
  = Some (mkState [mkLog 2000 "{}"] 2000 None [] (PutInFlight 0)
                  [Put.mk [mkLog 2000 "{}"] "group" "stream" None]) /\
  Z.of_nat (List.length
              (Put.logEvents (Put.mk [mkLog 2000 "{}"] "group" "stream" None)))
  <= 10000.
Proof.
  assert (Hrun :
    run 1000 "group" "stream" [Produce 2000 (mkLog 2000 "{}"); FlushStart]
        (init 0 None)
    = Some (mkState [mkLog 2000 "{}"] 2000 None [] (PutInFlight 0)
                    [Put.mk [mkLog 2000 "{}"] "group" "stream" None]))
    by reflexivity.
  assert (Hall : Forall (fun ev => is_smooth ev = true)
                        [Produce 2000 (mkLog 2000 "{}"); FlushStart])
    by (repeat constructor).
  split; [exact Hrun|].
  apply (count_ceiling_without_failure_or_retry _ _ _ _ _ _ _
           (Put.mk [mkLog 2000 "{}"] "group" "stream" None) Hall Hrun).
  simpl. now left.
Defined.

(** ** What every command looks like *)

Lemma step_sent_addressed (interval : Z) (g s : string) (ev : Event)
      (st st' : State) :
  step interval g s ev st = Some st' ->
  Forall (addressed_command g s) (sent st) ->
  Forall (addressed_command g s) (sent st').
Proof.
  intros Hstep Hsent. destruct ev as [now obj|now| |r now].
  - unfold step in Hstep. destruct (loop st); try discriminate.
    destruct (addLog_effect interval now obj st) as (_ & Hs' & _).
    destruct (addLog interval now obj st) as [[|] st1]; simpl in *;
      injection Hstep as <-; simpl; now rewrite Hs'.
  - rewrite step_Immediate in Hstep.
    destruct (immediates st) as [|log rest]; [discriminate|].
    injection Hstep as <-.
    destruct (addLog_effect interval now log (set_immediates rest st))
      as (_ & Hs' & _). simpl in Hs'. now rewrite Hs'.
  - unfold step in Hstep. destruct (loop st); try discriminate.
    injection Hstep as <-.
    unfold flush_start, putEventLogs_command, orderLogs, getLogs. simpl.
    fold by_timestamp.
    destruct (Array_sort by_timestamp (bufferedLogs st)) as [|x l]; simpl.
    + exact Hsent.
    + apply Forall_app. split; [exact Hsent|].
      constructor; [|constructor]. unfold addressed_command; simpl.
      repeat split. discriminate.
  - destruct (step_settle_token _ _ _ _ _ _ _ Hstep) as (Hs & _).
    now rewrite Hs.
Qed.

Lemma initialize_sent_nothing (interval : Z) (g s : string) (t0 now : Z)
      (a : BootAnswers) :
  sent (snd (initialize interval g s t0 now a)) = [].
Proof.
  unfold initialize.
  destruct (bootstrap_state g s a (init t0 None)) as (token & Hst & _).
  destruct (bootstrap g s a (init t0 None)) as [[cmds c] st].
  cbn [snd] in Hst. subst st. destruct c as [|e]; cbv beta iota.
  - reflexivity.
  - unfold addErrorLog.
    pose proof (addLog_effect interval now
                  (errorRecord now (initializationError e))
                  (set_sequenceToken token (init t0 None))) as (_ & Hs & _).
    destruct (addLog interval now _ _) as [[|] st']; cbn [snd fst] in *;
      exact Hs.
Qed.

(** X17: however the bootstrap went, every command the transport passes to
    [client.send], in any execution, holds at least one record and names
    the configured log group and log stream. *)
Theorem every_command_is_addressed
        (interval : Z) (g s : string) (t0 now : Z) (a : BootAnswers)
        (evs : list Event) (st : State) (cmd : Put.Command) :
  run interval g s evs (snd (initialize interval g s t0 now a)) = Some st ->
  In cmd (sent st) ->
  Put.logEvents cmd <> [] /\
  Put.logGroupName cmd = g /\ Put.logStreamName cmd = s.
Proof.
  intros Hrun Hcmd.
  assert (Hall : Forall (addressed_command g s) (sent st)).
  { assert (Hinit : Forall (addressed_command g s)
                           (sent (snd (initialize interval g s t0 now a))))
      by (rewrite initialize_sent_nothing; constructor).
    revert Hinit Hrun. generalize (snd (initialize interval g s t0 now a)).
    induction evs as [|ev evs IH]; intros st0 Hst0 Hrun; simpl in Hrun.
    - now injection Hrun as <-.
    - destruct (step interval g s ev st0) as [st1|] eqn:E; [|discriminate].
      apply (IH st1); [|exact Hrun].
      exact (step_sent_addressed _ _ _ _ _ _ E Hst0). }
  rewrite Forall_forall in Hall. exact (Hall cmd Hcmd).
Qed.

Lemma every_command_is_addressed_witness :
  run 1000 "group" "stream"
      [Produce 900 (mkLog 1700 "b"); Produce 2000 (mkLog 1500 "a"); FlushStart]
      (snd (initialize 1000 "group" "stream" 0 400
              (mkAnswers Created Created (Described None))))
  = Some (mkState [mkLog 1500 "a"; mkLog 1700 "b"] 2000 None []
                  (PutInFlight 0)
                  [Put.mk [mkLog 1500 "a"; mkLog 1700 "b"]
                          "group" "stream" None]) /\
  addressed_command "group" "stream"
    (Put.mk [mkLog 1500 "a"; mkLog 1700 "b"] "group" "stream" None).
Proof.
  assert (Hrun :
    run 1000 "group" "stream"
        [Produce 900 (mkLog 1700 "b"); Produce 2000 (mkLog 1500 "a");
         FlushStart]
        (snd (initialize 1000 "group" "stream" 0 400
                (mkAnswers Created Created (Described None))))
    = Some (mkState [mkLog 1500 "a"; mkLog 1700 "b"] 2000 None []
                    (PutInFlight 0)
                    [Put.mk [mkLog 1500 "a"; mkLog 1700 "b"]
                            "group" "stream" None]))
    by reflexivity.
  split; [exact Hrun|].
  apply (every_command_is_addressed _ _ _ _ _ _ _ _ _ Hrun).
  simpl. now left.
Defined.

(** ** Flush executions in time *)









